(** * Bounds-checked memory streams of libtins (include/tins/memory_helpers.h)

    A shallow embedding of [Tins::Memory::InputMemoryStream] and
    [Tins::Memory::OutputMemoryStream], together with the free helpers
    [read_data], [read_value], [write_data] and [write_value].

    Conventions of the embedding:
    - a [uint32_t] is a [Z] in the range [0, 2^32); every arithmetic result
      stored into one is reduced with [to_uint32];
    - a [uint8_t*] is an offset (a [Z]) into one allocation, the allocation
      being a [list byte]; arithmetic on the pointer of a stream is plain
      addition, also when it leaves the allocation;
    - [std::memcpy], [std::copy] and [std::fill] touching bytes outside the
      allocation have no defined result: the outcome is [Undefined];
    - a member function is a computation in a state monad over the object,
      whose outcome is a value, a thrown exception or [Undefined]. *)

From Stdlib Require Import ZArith List Bool Lia.
From coqutil Require Import Byte Word.LittleEndianList.
Import ListNotations.
Local Open Scope Z_scope.

(** ** Machine integers *)

Definition UINT32_MOD : Z := 2 ^ 32.

(** Conversion of an integer value to [uint32_t]. *)
Definition to_uint32 (z : Z) : Z := z mod UINT32_MOD.

(** The values a [uint32_t] variable can hold. *)
Definition is_uint32 (z : Z) : Prop := 0 <= z < UINT32_MOD.

(** ** Memory *)

(** One allocation: the caller-owned buffer a stream points into. *)
Definition memory : Type := list byte.

Definition in_bounds (m : memory) (p n : Z) : bool :=
  (0 <=? p) && (0 <=? n) && (p + n <=? Z.of_nat (length m)).

(** The [n] bytes starting at offset [p], when they lie inside [m]. *)
Definition load (m : memory) (p n : Z) : option (list byte) :=
  if in_bounds m p n
  then Some (firstn (Z.to_nat n) (skipn (Z.to_nat p) m))
  else None.

(** [m] with the bytes [bs] stored from offset [p] on, when they fit. *)
Definition store (m : memory) (p : Z) (bs : list byte) : option memory :=
  if in_bounds m p (Z.of_nat (length bs))
  then Some (firstn (Z.to_nat p) m ++ bs
               ++ skipn (Z.to_nat p + length bs) m)
  else None.

(** ** Exceptions and the monad of member functions *)

(** Modelled from the spec: exceptions.h is not among the sources.  The
    streams throw two exception classes: [malformed_packet] when a read
    exceeds the bytes remaining, [serialization_error] when a write exceeds
    the capacity remaining. *)
Inductive exception : Type :=
| malformed_packet
| serialization_error.

Inductive outcome (A : Type) : Type :=
| Ok (a : A)
| Throw (e : exception)
| Undefined.
Arguments Ok {A} a.
Arguments Throw {A} e.
Arguments Undefined {A}.

Definition M (St A : Type) : Type := St -> outcome A * St.

Definition ret {St A} (a : A) : M St A := fun s => (Ok a, s).

Definition bind {St A B} (m : M St A) (k : A -> M St B) : M St B :=
  fun s =>
    match m s with
    | (Ok a, s') => k a s'
    | (Throw e, s') => (Throw e, s')
    | (Undefined, s') => (Undefined, s')
    end.

Definition throw {St A} (e : exception) : M St A := fun s => (Throw e, s).

Definition undefined {St A} : M St A := fun s => (Undefined, s).

Definition gets {St A} (f : St -> A) : M St A := fun s => (Ok (f s), s).

Definition modify {St} (f : St -> St) : M St unit := fun s => (Ok tt, f s).

Definition defined {St A} (o : option A) : M St A :=
  match o with
  | Some a => ret a
  | None => undefined
  end.

Declare Scope stream_scope.
Delimit Scope stream_scope with stream.
Notation "x <- m ;; k" := (bind m (fun x => k))
  (at level 61, m at next level, right associativity) : stream_scope.
Notation "m ;;; k" := (bind m (fun _ => k))
  (at level 61, right associativity) : stream_scope.
Local Open Scope stream_scope.

(** ** Scalar types *)

(** Byte order of the machine the code runs on. *)
Inductive endian : Type := LittleEndian | BigEndian.

(** What the templates [read_value<T>] and [write_value<T>] need of [T]:
    its size and its object representation, as [std::memcpy] sees it. *)
Class Scalar (T : Type) : Type := {
  sizeof : Z;
  (** the bytes [memcpy(dst, &value, sizeof(value))] produces *)
  object_repr : T -> list byte;
  (** the value [memcpy(&value, src, sizeof(value))] leaves in [value] *)
  from_repr : list byte -> T;
  (** the values of the type *)
  valid : T -> Prop
}.

(** A scalar type is well formed when its size is positive and fits the
    stream's 32-bit counters, every value has a representation of that
    size, and every byte pattern of that size is a value (integer types
    have no trap representation). *)
Class ScalarOk (T : Type) {sc : Scalar T} : Prop := {
  sizeof_range : 0 < sizeof < UINT32_MOD;
  object_repr_length : forall v : T, Z.of_nat (length (object_repr v)) = sizeof;
  from_object_repr : forall v : T, valid v -> from_repr (object_repr v) = v;
  object_from_repr : forall bs : list byte,
      Z.of_nat (length bs) = sizeof -> object_repr (from_repr (T := T) bs) = bs;
  from_repr_valid : forall bs : list byte,
      Z.of_nat (length bs) = sizeof -> valid (from_repr (T := T) bs)
}.

(** Unsigned integers of [w] bytes on a machine of byte order [e]. *)
Definition uint_repr (e : endian) (w : nat) (v : Z) : list byte :=
  match e with
  | LittleEndian => le_split w v
  | BigEndian => rev (le_split w v)
  end.

Definition uint_value (e : endian) (bs : list byte) : Z :=
  match e with
  | LittleEndian => le_combine bs
  | BigEndian => le_combine (rev bs)
  end.

Definition uint_valid (w : nat) (v : Z) : Prop :=
  0 <= v < 2 ^ (Z.of_nat w * 8).

Definition uint (e : endian) (w : nat) : Scalar Z :=
  {| sizeof := Z.of_nat w;
     object_repr := uint_repr e w;
     from_repr := uint_value e;
     valid := uint_valid w |}.

Definition uint8_t (e : endian) : Scalar Z := uint e 1.
Definition uint16_t (e : endian) : Scalar Z := uint e 2.
Definition uint32_t (e : endian) : Scalar Z := uint e 4.
Definition uint64_t (e : endian) : Scalar Z := uint e 8.

(** ** Address types *)

(** Modelled from the spec: ip_address.h is not among the sources.  An IPv4
    address is 4 bytes, held as an unsigned 32-bit integer; the streams use
    its constructor from a [uint32_t] and its conversion to [uint32_t]. *)
Module IPv4Address.
Record t : Type := { ip_addr_ : Z }.

Definition from_uint32 (ip : Z) : t := {| ip_addr_ := ip |}.

Definition to_uint32 (address : t) : Z := ip_addr_ address.

Definition valid (address : t) : Prop := is_uint32 (ip_addr_ address).
End IPv4Address.

(** Modelled from the spec: ipv6_address.h is not among the sources.  An
    IPv6 address is 16 bytes, iterable from [begin()] to [end()], and
    constructible from a raw byte pointer, of which it reads 16 bytes. *)
Module IPv6Address.
Definition address_size : Z := 16.

Record t : Type := { address_ : list byte }.

Definition from_ptr (m : memory) (ptr : Z) : option t :=
  option_map (fun bs => {| address_ := bs |}) (load m ptr address_size).

(** the range [begin(), end()) *)
Definition bytes (address : t) : list byte := address_ address.

Definition valid (address : t) : Prop :=
  Z.of_nat (length (address_ address)) = address_size.
End IPv6Address.

(** Modelled from the spec: hw_address.h is not among the sources.  A
    hardware address [HWAddress<n>] is [n] bytes, [n] fixed by the type,
    iterable from [begin()] to [end()], and constructible from a raw byte
    pointer, of which it reads [n] bytes. *)
Module HWAddress.
Definition address_size (n : nat) : Z := Z.of_nat n.

Record t (n : nat) : Type := { buffer_ : list byte }.
Arguments buffer_ {n} _.

Definition from_ptr (n : nat) (m : memory) (ptr : Z) : option (t n) :=
  option_map (fun bs => {| buffer_ := bs |}) (load m ptr (address_size n)).

(** the range [begin(), end()) *)
Definition bytes {n : nat} (address : t n) : list byte := buffer_ address.

Definition valid {n : nat} (address : t n) : Prop :=
  length (buffer_ address) = n.
End HWAddress.

(** ** Free helpers *)

(** Modelled from the spec: the macros [TINS_LIKELY] and [TINS_UNLIKELY] are
    not among the sources; they are branch hints with no effect on the
    value of the condition. *)
Definition TINS_LIKELY (b : bool) : bool := b.
Definition TINS_UNLIKELY (b : bool) : bool := b.

(** [read_data(buffer, output_buffer, size)]: the bytes left in the output
    buffer. *)
Definition read_data (m : memory) (buffer size : Z) : option (list byte) :=
  load m buffer size.

(** [read_value(buffer, value)]: the new content of [value]. *)
Definition read_value {T} {sc : Scalar T} (m : memory) (buffer : Z) : option T :=
  option_map from_repr (load m buffer sizeof).

(** [write_data(buffer, ptr, size)], [ptr] pointing into the allocation
    [src]: the memory after the copy. *)
Definition write_data (m : memory) (buffer : Z) (src : memory) (ptr size : Z)
  : option memory :=
  match load src ptr size with
  | Some bytes => store m buffer bytes
  | None => None
  end.

(** [write_value(buffer, value)]: the memory after the copy. *)
Definition write_value {T} {sc : Scalar T} (m : memory) (buffer : Z) (value : T)
  : option memory :=
  store m buffer (object_repr value).

(** ** InputMemoryStream *)

Module InputMemoryStream.
Record t : Type := { buffer_ : Z; size_ : Z }.

(** [InputMemoryStream(const uint8_t* buffer, uint32_t total_sz)] *)
Definition make (buffer total_sz : Z) : t :=
  {| buffer_ := buffer; size_ := total_sz |}.

(** [InputMemoryStream(const std::vector<uint8_t>& data)]: the stream
    points to the first element of the vector, which is the allocation. *)
Definition of_vector (data : list byte) : t :=
  {| buffer_ := 0; size_ := to_uint32 (Z.of_nat (length data)) |}.

Definition skip (size : Z) : M t unit :=
  modify (fun s => {| buffer_ := buffer_ s + size;
                      size_ := to_uint32 (size_ s - size) |}).

Definition can_read (byte_count : Z) : M t bool :=
  gets (fun s => TINS_LIKELY (byte_count <=? size_ s)).

Definition pointer : M t Z := gets buffer_.

Definition size : M t Z := gets size_.

Definition set_size (new_size : Z) : M t unit :=
  modify (fun s => {| buffer_ := buffer_ s; size_ := new_size |}).

Definition operator_bool : M t bool := gets (fun s => 0 <? size_ s).

Section Reading.
(** The allocation the stream points into; a stream never writes it. *)
Variable m : memory.

(** [template <typename T> void read(T& value)]: the result is the new
    content of [value]. *)
Definition read_into {T} {sc : Scalar T} : M t T :=
  ok <- can_read (to_uint32 sizeof) ;;
  if negb ok then throw malformed_packet
  else
    buffer <- gets buffer_ ;;
    value <- defined (read_value m buffer) ;;
    skip (to_uint32 sizeof) ;;;
    ret value.

(** [template <typename T> T read()] *)
Definition read {T} {sc : Scalar T} : M t T :=
  output <- read_into ;;
  ret output.

(** [void read(IPv4Address& address)], on a machine of byte order [e] *)
Definition read_IPv4Address (e : endian) : M t IPv4Address.t :=
  ip <- read (sc := uint32_t e) ;;
  ret (IPv4Address.from_uint32 ip).

(** [void read(IPv6Address& address)] *)
Definition read_IPv6Address : M t IPv6Address.t :=
  ok <- can_read (to_uint32 IPv6Address.address_size) ;;
  if negb ok then throw malformed_packet
  else
    ptr <- pointer ;;
    address <- defined (IPv6Address.from_ptr m ptr) ;;
    skip (to_uint32 IPv6Address.address_size) ;;;
    ret address.

(** [template <size_t n> void read(HWAddress<n>& address)] *)
Definition read_HWAddress (n : nat) : M t (HWAddress.t n) :=
  ok <- can_read (to_uint32 (HWAddress.address_size n)) ;;
  if negb ok then throw malformed_packet
  else
    ptr <- pointer ;;
    address <- defined (HWAddress.from_ptr n m ptr) ;;
    skip (to_uint32 (HWAddress.address_size n)) ;;;
    ret address.

(** [void read(void* output_buffer, uint32_t output_buffer_size)]: the
    result is the bytes left in the output buffer. *)
Definition read_buffer (output_buffer_size : Z) : M t (list byte) :=
  ok <- can_read output_buffer_size ;;
  if negb ok then throw malformed_packet
  else
    buffer <- gets buffer_ ;;
    output <- defined (read_data m buffer output_buffer_size) ;;
    skip output_buffer_size ;;;
    ret output.
End Reading.
End InputMemoryStream.

(** The stream [s] once [n] more bytes are consumed. *)
Definition consumed (s : InputMemoryStream.t) (n : Z) : InputMemoryStream.t :=
  {| InputMemoryStream.buffer_ := InputMemoryStream.buffer_ s + n;
     InputMemoryStream.size_ := to_uint32 (InputMemoryStream.size_ s - n) |}.

(** ** OutputMemoryStream *)

Module OutputMemoryStream.
Record t : Type := { buffer_ : Z; size_ : Z }.

(** A stream together with the allocation it writes into. *)
Record state : Type := { mem : memory; stream : t }.

(** [OutputMemoryStream(uint8_t* buffer, uint32_t total_sz)] *)
Definition make (buffer total_sz : Z) : t :=
  {| buffer_ := buffer; size_ := total_sz |}.

Definition skip (size : Z) : M state unit :=
  modify (fun s =>
            {| mem := mem s;
               stream := {| buffer_ := buffer_ (stream s) + size;
                            size_ := to_uint32 (size_ (stream s) - size) |} |}).

(** A library routine that overwrites memory: [update] yields the new
    content of the allocation, or nothing when the routine leaves it. *)
Definition overwrite (update : memory -> option memory) : M state unit :=
  fun s =>
    match update (mem s) with
    | Some m' => (Ok tt, {| mem := m'; stream := stream s |})
    | None => (Undefined, s)
    end.

(** [template <typename T> void write(const T& value)] *)
Definition write {T} {sc : Scalar T} (value : T) : M state unit :=
  size <- gets (fun s => size_ (stream s)) ;;
  if TINS_UNLIKELY (size <? sizeof) then throw serialization_error
  else
    buffer <- gets (fun s => buffer_ (stream s)) ;;
    overwrite (fun m => write_value m buffer value) ;;;
    skip (to_uint32 sizeof).

(** [template <typename ForwardIterator> void write(ForwardIterator start,
    ForwardIterator end)]: [range] is the sequence of bytes from [start]
    to [end]; [std::distance] is its number of elements, which the
    assignment to [const uint32_t length] converts to 32 bits. *)
Definition write_range (range : list byte) : M state unit :=
  let length := to_uint32 (Z.of_nat (List.length range)) in
  size <- gets (fun s => size_ (stream s)) ;;
  if TINS_UNLIKELY (size <? length) then throw serialization_error
  else
    buffer <- gets (fun s => buffer_ (stream s)) ;;
    overwrite (fun m => store m buffer range) ;;;
    skip length.

(** [void write(const uint8_t* ptr, uint32_t length)], [ptr] pointing into
    the caller's allocation [src]: the range from [ptr] to [ptr + length]
    is the [length] bytes at [ptr], and the call is undefined when they do
    not lie inside [src]. *)
Definition write_ptr (src : memory) (ptr length : Z) : M state unit :=
  range <- defined (load src ptr length) ;;
  write_range range.

(** [void write(const IPv4Address& address)], on a machine of byte order
    [e] *)
Definition write_IPv4Address (e : endian) (address : IPv4Address.t)
  : M state unit :=
  write (sc := uint32_t e) (IPv4Address.to_uint32 address).

(** [void write(const IPv6Address& address)] *)
Definition write_IPv6Address (address : IPv6Address.t) : M state unit :=
  write_range (IPv6Address.bytes address).

(** [template <size_t n> void write(const HWAddress<n>& address)] *)
Definition write_HWAddress {n : nat} (address : HWAddress.t n)
  : M state unit :=
  write_range (HWAddress.bytes address).

(** [void fill(uint32_t size, uint8_t value)] *)
Definition fill (size : Z) (value : byte) : M state unit :=
  remaining <- gets (fun s => size_ (stream s)) ;;
  if TINS_UNLIKELY (remaining <? size) then throw serialization_error
  else
    buffer <- gets (fun s => buffer_ (stream s)) ;;
    overwrite (fun m => store m buffer (repeat value (Z.to_nat size))) ;;;
    skip size.

Definition pointer : M state Z := gets (fun s => buffer_ (stream s)).

Definition size : M state Z := gets (fun s => size_ (stream s)).
End OutputMemoryStream.

(** The state [s] once [n] more bytes are produced, the allocation
    having become [m']. *)
Definition produced (s : OutputMemoryStream.state) (m' : memory) (n : Z)
  : OutputMemoryStream.state :=
  {| OutputMemoryStream.mem := m';
     OutputMemoryStream.stream :=
       {| OutputMemoryStream.buffer_ :=
            OutputMemoryStream.buffer_ (OutputMemoryStream.stream s) + n;
          OutputMemoryStream.size_ :=
            to_uint32 (OutputMemoryStream.size_ (OutputMemoryStream.stream s) - n) |} |}.

(** Short names for the parts of an output state. *)
Abbreviation capacity s :=
  (OutputMemoryStream.size_ (OutputMemoryStream.stream s)).
Abbreviation position s :=
  (OutputMemoryStream.buffer_ (OutputMemoryStream.stream s)).
Abbreviation heap s := (OutputMemoryStream.mem s).

(** ** Operations as data

    A caller drives a stream by a sequence of calls.  The calls are
    reified so that statements can range over every operation and over
    every sequence of operations. *)

Definition void {St A} (c : M St A) : M St unit := c ;;; ret tt.

Inductive input_op : Type :=
| in_skip (size : Z)
| in_can_read (byte_count : Z)
| in_read (T : Type) (sc : Scalar T)
| in_read_into (T : Type) (sc : Scalar T)
| in_read_IPv4Address (e : endian)
| in_read_IPv6Address
| in_read_HWAddress (n : nat)
| in_read_buffer (output_buffer_size : Z)
| in_pointer
| in_size
| in_set_size (new_size : Z)
| in_bool.

Definition exec_input (m : memory) (op : input_op) : M InputMemoryStream.t unit :=
  match op with
  | in_skip size => InputMemoryStream.skip size
  | in_can_read byte_count => void (InputMemoryStream.can_read byte_count)
  | in_read T sc => void (@InputMemoryStream.read m T sc)
  | in_read_into T sc => void (@InputMemoryStream.read_into m T sc)
  | in_read_IPv4Address e => void (InputMemoryStream.read_IPv4Address m e)
  | in_read_IPv6Address => void (InputMemoryStream.read_IPv6Address m)
  | in_read_HWAddress n => void (InputMemoryStream.read_HWAddress m n)
  | in_read_buffer n => void (InputMemoryStream.read_buffer m n)
  | in_pointer => void InputMemoryStream.pointer
  | in_size => void InputMemoryStream.size
  | in_set_size new_size => InputMemoryStream.set_size new_size
  | in_bool => void InputMemoryStream.operator_bool
  end.

(** The byte count a bounds-checked read asks for; [None] for the
    operations that transfer no data. *)
Definition input_request (op : input_op) : option Z :=
  match op with
  | in_read T sc | in_read_into T sc => Some (@sizeof T sc)
  | in_read_IPv4Address e => Some (@sizeof Z (uint32_t e))
  | in_read_IPv6Address => Some IPv6Address.address_size
  | in_read_HWAddress n => Some (HWAddress.address_size n)
  | in_read_buffer n => Some n
  | in_skip _ | in_can_read _ | in_pointer | in_size | in_set_size _
  | in_bool => None
  end.

(** The arguments of a call have the types the signature gives them. *)
Definition input_typed (op : input_op) : Prop :=
  match op with
  | in_skip n | in_can_read n | in_read_buffer n | in_set_size n => is_uint32 n
  | in_read T sc | in_read_into T sc => @ScalarOk T sc
  | in_read_HWAddress n => is_uint32 (HWAddress.address_size n)
  | in_read_IPv4Address _ | in_read_IPv6Address | in_pointer | in_size
  | in_bool => True
  end.

(** The documented contract of the unchecked operations: [skip] is called
    only for bytes known to remain, and [size(new_size)] only truncates. *)
Definition input_contract (op : input_op) (s : InputMemoryStream.t) : Prop :=
  match op with
  | in_skip n | in_set_size n => n <= InputMemoryStream.size_ s
  | _ => True
  end.

(** A sequence of calls; a call that throws leaves the stream as it is at
    the throw, and the caller goes on.  [None] when a call is undefined. *)
Fixpoint run_input (m : memory) (ops : list input_op) (s : InputMemoryStream.t)
  : option InputMemoryStream.t :=
  match ops with
  | [] => Some s
  | op :: ops' =>
      match exec_input m op s with
      | (Undefined, _) => None
      | (_, s') => run_input m ops' s'
      end
  end.

(** Every call of the sequence is well typed, respectively within the
    contract, in the state it is made in. *)
Fixpoint all_calls (P : input_op -> InputMemoryStream.t -> Prop)
  (m : memory) (ops : list input_op) (s : InputMemoryStream.t) : Prop :=
  match ops with
  | [] => True
  | op :: ops' => P op s /\ all_calls P m ops' (snd (exec_input m op s))
  end.

Inductive output_op : Type :=
| out_skip (size : Z)
| out_write (T : Type) (sc : Scalar T) (value : T)
| out_write_range (range : list byte)
| out_write_ptr (src : memory) (ptr length : Z)
| out_write_IPv4Address (e : endian) (address : IPv4Address.t)
| out_write_IPv6Address (address : IPv6Address.t)
| out_write_HWAddress (n : nat) (address : HWAddress.t n)
| out_fill (size : Z) (value : byte)
| out_pointer
| out_size.

Definition exec_output (op : output_op) : M OutputMemoryStream.state unit :=
  match op with
  | out_skip size => OutputMemoryStream.skip size
  | out_write T sc value => @OutputMemoryStream.write T sc value
  | out_write_range range => OutputMemoryStream.write_range range
  | out_write_ptr src ptr length => OutputMemoryStream.write_ptr src ptr length
  | out_write_IPv4Address e address =>
      OutputMemoryStream.write_IPv4Address e address
  | out_write_IPv6Address address => OutputMemoryStream.write_IPv6Address address
  | out_write_HWAddress n address => OutputMemoryStream.write_HWAddress address
  | out_fill size value => OutputMemoryStream.fill size value
  | out_pointer => void OutputMemoryStream.pointer
  | out_size => void OutputMemoryStream.size
  end.

(** The byte count a bounds-checked write asks for. *)
Definition output_request (op : output_op) : option Z :=
  match op with
  | out_write T sc _ => Some (@sizeof T sc)
  | out_write_range range => Some (Z.of_nat (length range))
  | out_write_ptr _ _ length => Some length
  | out_write_IPv4Address e _ => Some (@sizeof Z (uint32_t e))
  | out_write_IPv6Address address =>
      Some (Z.of_nat (length (IPv6Address.bytes address)))
  | out_write_HWAddress n address =>
      Some (Z.of_nat (length (HWAddress.bytes address)))
  | out_fill size _ => Some size
  | out_skip _ | out_pointer | out_size => None
  end.

(** The arguments of a call have the types the signature gives them, the
    pointer of a pointer-and-length write points to [length] bytes, and a
    byte count is one a [uint32_t] holds. *)
Definition output_typed (op : output_op) : Prop :=
  match op with
  | out_skip n | out_fill n _ => is_uint32 n
  | out_write T sc _ => @ScalarOk T sc
  | out_write_range range => is_uint32 (Z.of_nat (length range))
  | out_write_ptr src ptr length =>
      is_uint32 length /\ in_bounds src ptr length = true
  | out_write_IPv6Address address =>
      is_uint32 (Z.of_nat (length (IPv6Address.bytes address)))
  | out_write_HWAddress n address =>
      is_uint32 (Z.of_nat (length (HWAddress.bytes address)))
  | out_write_IPv4Address _ _ | out_pointer | out_size => True
  end.

(** The contract of the unchecked [skip] of an output stream: it is
    called only for capacity known to remain. *)
Definition output_contract (op : output_op) (s : OutputMemoryStream.state)
  : Prop :=
  match op with
  | out_skip n => n <= capacity s
  | _ => True
  end.

(** A sequence of calls on an output stream; a call that throws leaves
    stream and buffer as they are at the throw, and the caller goes on.
    [None] when a call is undefined. *)
Fixpoint run_output (ops : list output_op) (s : OutputMemoryStream.state)
  : option OutputMemoryStream.state :=
  match ops with
  | [] => Some s
  | op :: ops' =>
      match exec_output op s with
      | (Undefined, _) => None
      | (_, s') => run_output ops' s'
      end
  end.

(** Every call of the sequence satisfies [P] in the state it is made in. *)
Fixpoint all_output_calls
  (P : output_op -> OutputMemoryStream.state -> Prop)
  (ops : list output_op) (s : OutputMemoryStream.state) : Prop :=
  match ops with
  | [] => True
  | op :: ops' => P op s /\ all_output_calls P ops' (snd (exec_output op s))
  end.

(** The six bytes 01 00 00 00 AB CD of the reading scenario. *)
Definition scenario_buffer : memory :=
  [Init.Byte.x01; Init.Byte.x00; Init.Byte.x00; Init.Byte.x00;
   Init.Byte.xab; Init.Byte.xcd].

(** * Properties *)

(** ** Machine integers and memory *)

Lemma UINT32_MOD_eq : UINT32_MOD = 4294967296.
Proof. reflexivity. Qed.

Lemma to_uint32_small z : is_uint32 z -> to_uint32 z = z.
Proof. intros Hz. apply Z.mod_small. exact Hz. Qed.

Lemma to_uint32_range z : is_uint32 (to_uint32 z).
Proof. apply Z.mod_pos_bound. reflexivity. Qed.

Lemma to_uint32_wrap z :
  - UINT32_MOD <= z < 0 -> to_uint32 z = z + UINT32_MOD.
Proof.
  intros Hz. unfold to_uint32.
  rewrite <- (Z.mod_add z 1 UINT32_MOD) by (rewrite UINT32_MOD_eq; lia).
  apply Z.mod_small. lia.
Qed.

Lemma in_bounds_true m p n :
  in_bounds m p n = true <-> 0 <= p /\ 0 <= n /\ p + n <= Z.of_nat (length m).
Proof.
  unfold in_bounds. rewrite !andb_true_iff, !Z.leb_le. tauto.
Qed.

Lemma load_Some m p n bs :
  load m p n = Some bs ->
  in_bounds m p n = true /\ bs = firstn (Z.to_nat n) (skipn (Z.to_nat p) m).
Proof.
  unfold load. destruct (in_bounds m p n); [|discriminate].
  intros [= <-]. split; reflexivity.
Qed.

Lemma load_in_bounds m p n :
  in_bounds m p n = true -> exists bs, load m p n = Some bs.
Proof. intros Hb. unfold load. rewrite Hb. eauto. Qed.

Lemma load_length m p n bs : load m p n = Some bs -> Z.of_nat (length bs) = n.
Proof.
  intros Hl. apply load_Some in Hl. destruct Hl as [Hb ->].
  apply in_bounds_true in Hb.
  rewrite length_firstn, length_skipn. lia.
Qed.

Lemma load_zero m p : 0 <= p <= Z.of_nat (length m) -> load m p 0 = Some [].
Proof.
  intros Hp. unfold load.
  replace (in_bounds m p 0) with true
    by (symmetry; apply in_bounds_true; lia).
  reflexivity.
Qed.

Lemma store_length m p bs m' : store m p bs = Some m' -> length m' = length m.
Proof.
  unfold store. destruct (in_bounds m p (Z.of_nat (length bs))) eqn:Hb;
    [|discriminate].
  intros [= <-]. apply in_bounds_true in Hb.
  rewrite !length_app, length_firstn, length_skipn. lia.
Qed.

Lemma store_in_bounds m p bs :
  in_bounds m p (Z.of_nat (length bs)) = true -> exists m', store m p bs = Some m'.
Proof. intros Hb. unfold store. rewrite Hb. eauto. Qed.

(** The bytes stored are the bytes found there afterwards. *)
Lemma load_store m p bs m' :
  store m p bs = Some m' -> load m' p (Z.of_nat (length bs)) = Some bs.
Proof.
  intros Hs. pose proof (store_length _ _ _ _ Hs) as Hlen. revert Hs.
  unfold store, load.
  destruct (in_bounds m p (Z.of_nat (length bs))) eqn:Hb; [|discriminate].
  intros [= <-].
  replace (in_bounds _ p _) with true.
  2:{ symmetry. apply in_bounds_true. apply in_bounds_true in Hb.
      rewrite Hlen. lia. }
  apply in_bounds_true in Hb. f_equal.
  rewrite skipn_app, Nat2Z.id.
  rewrite (skipn_all2 (n := Z.to_nat p)) by (rewrite length_firstn; lia).
  rewrite length_firstn.
  replace (Z.to_nat p - Nat.min (Z.to_nat p) (length m))%nat with 0%nat by lia.
  simpl. rewrite firstn_app, firstn_all, Nat.sub_diag. simpl.
  apply app_nil_r.
Qed.

(** A store leaves the bytes before and after it as they were. *)
Lemma store_shape m p bs m' :
  store m p bs = Some m' ->
  m' = firstn (Z.to_nat p) m ++ bs ++ skipn (Z.to_nat p + length bs) m.
Proof.
  unfold store. destruct (in_bounds m p (Z.of_nat (length bs)));
    [|discriminate].
  intros [= <-]. reflexivity.
Qed.

(** ** The unsigned integer types are well-formed scalars *)

Lemma uint_ok e w : 0 < Z.of_nat w < UINT32_MOD -> @ScalarOk Z (uint e w).
Proof.
  intros Hw. split; simpl.
  - exact Hw.
  - intros v. destruct e; simpl; rewrite ?length_rev, length_le_split;
      reflexivity.
  - intros v Hv. destruct e; simpl;
      rewrite ?rev_involutive, le_combine_split; apply Z.mod_small; exact Hv.
  - intros bs Hl. apply Nat2Z.inj in Hl. subst w. destruct e; simpl.
    + apply split_le_combine.
    + rewrite <- (length_rev bs), split_le_combine. apply rev_involutive.
  - intros bs Hl. apply Nat2Z.inj in Hl. subst w. unfold uint_valid.
    destruct e; simpl.
    + rewrite Z.mul_comm. apply le_combine_bound.
    + rewrite <- (length_rev bs), Z.mul_comm. apply le_combine_bound.
Qed.

Lemma uint8_t_ok e : @ScalarOk Z (uint8_t e).
Proof. apply uint_ok. rewrite UINT32_MOD_eq. simpl. lia. Qed.

Lemma uint16_t_ok e : @ScalarOk Z (uint16_t e).
Proof. apply uint_ok. rewrite UINT32_MOD_eq. simpl. lia. Qed.

Lemma uint32_t_ok e : @ScalarOk Z (uint32_t e).
Proof. apply uint_ok. rewrite UINT32_MOD_eq. simpl. lia. Qed.

Lemma uint64_t_ok e : @ScalarOk Z (uint64_t e).
Proof. apply uint_ok. rewrite UINT32_MOD_eq. simpl. lia. Qed.

Lemma sizeof_uint32 {T} {sc : Scalar T} :
  ScalarOk T -> to_uint32 sizeof = sizeof.
Proof.
  intros Hok. apply to_uint32_small. pose proof sizeof_range. unfold is_uint32. lia.
Qed.

(** ** The operations, one equation each *)

Import InputMemoryStream (buffer_, size_).

Section InputEquations.
Variable m : memory.
Implicit Type s : InputMemoryStream.t.

Lemma skip_eq n s : InputMemoryStream.skip n s = (Ok tt, consumed s n).
Proof. reflexivity. Qed.

Lemma can_read_eq n s :
  InputMemoryStream.can_read n s = (Ok (n <=? size_ s), s).
Proof. reflexivity. Qed.

Lemma read_into_eq {T} {sc : Scalar T} (Hok : ScalarOk T) s :
  InputMemoryStream.read_into m s =
    if size_ s <? sizeof then (Throw malformed_packet, s)
    else match load m (buffer_ s) sizeof with
         | Some bs => (Ok (from_repr bs), consumed s sizeof)
         | None => (Undefined, s)
         end.
Proof.
  unfold InputMemoryStream.read_into, bind, InputMemoryStream.can_read,
    gets, TINS_LIKELY, read_value.
  rewrite (sizeof_uint32 Hok), Z.ltb_antisym.
  destruct (sizeof <=? size_ s); simpl; [|reflexivity].
  destruct (load m (buffer_ s) sizeof); reflexivity.
Qed.

Lemma read_read_into {T} {sc : Scalar T} s :
  InputMemoryStream.read m s = InputMemoryStream.read_into m s.
Proof.
  unfold InputMemoryStream.read, bind, ret.
  destruct (InputMemoryStream.read_into m s) as [[v| |] s']; reflexivity.
Qed.

Lemma read_eq {T} {sc : Scalar T} (Hok : ScalarOk T) s :
  InputMemoryStream.read m s =
    if size_ s <? sizeof then (Throw malformed_packet, s)
    else match load m (buffer_ s) sizeof with
         | Some bs => (Ok (from_repr bs), consumed s sizeof)
         | None => (Undefined, s)
         end.
Proof. rewrite read_read_into. apply read_into_eq. exact Hok. Qed.

Lemma read_IPv4Address_eq e s :
  InputMemoryStream.read_IPv4Address m e s =
    if size_ s <? 4 then (Throw malformed_packet, s)
    else match load m (buffer_ s) 4 with
         | Some bs => (Ok (IPv4Address.from_uint32 (uint_value e bs)),
                       consumed s 4)
         | None => (Undefined, s)
         end.
Proof.
  unfold InputMemoryStream.read_IPv4Address, bind.
  rewrite (read_eq (uint32_t_ok e)). simpl sizeof.
  change (Z.of_nat 4) with 4.
  destruct (size_ s <? 4); [reflexivity|].
  destruct (load m (buffer_ s) 4); reflexivity.
Qed.

Lemma read_IPv6Address_eq s :
  InputMemoryStream.read_IPv6Address m s =
    if size_ s <? 16 then (Throw malformed_packet, s)
    else match load m (buffer_ s) 16 with
         | Some bs => (Ok {| IPv6Address.address_ := bs |}, consumed s 16)
         | None => (Undefined, s)
         end.
Proof.
  unfold InputMemoryStream.read_IPv6Address, bind,
    InputMemoryStream.can_read, InputMemoryStream.pointer, gets,
    TINS_LIKELY, IPv6Address.from_ptr, IPv6Address.address_size.
  change (to_uint32 16) with 16.
  rewrite Z.ltb_antisym.
  destruct (16 <=? size_ s); simpl; [|reflexivity].
  destruct (load m (buffer_ s) 16); reflexivity.
Qed.

Lemma read_HWAddress_eq n s :
  is_uint32 (HWAddress.address_size n) ->
  InputMemoryStream.read_HWAddress m n s =
    if size_ s <? Z.of_nat n then (Throw malformed_packet, s)
    else match load m (buffer_ s) (Z.of_nat n) with
         | Some bs => (Ok {| HWAddress.buffer_ := bs |},
                       consumed s (Z.of_nat n))
         | None => (Undefined, s)
         end.
Proof.
  intros Hn.
  unfold InputMemoryStream.read_HWAddress, bind,
    InputMemoryStream.can_read, InputMemoryStream.pointer, gets,
    TINS_LIKELY, HWAddress.from_ptr.
  rewrite (to_uint32_small _ Hn). unfold HWAddress.address_size.
  rewrite Z.ltb_antisym.
  destruct (Z.of_nat n <=? size_ s); simpl; [|reflexivity].
  destruct (load m (buffer_ s) (Z.of_nat n)); reflexivity.
Qed.

Lemma read_buffer_eq n s :
  InputMemoryStream.read_buffer m n s =
    if size_ s <? n then (Throw malformed_packet, s)
    else match load m (buffer_ s) n with
         | Some bs => (Ok bs, consumed s n)
         | None => (Undefined, s)
         end.
Proof.
  unfold InputMemoryStream.read_buffer, bind, InputMemoryStream.can_read,
    gets, TINS_LIKELY, read_data.
  rewrite Z.ltb_antisym.
  destruct (n <=? size_ s); simpl; [|reflexivity].
  destruct (load m (buffer_ s) n); reflexivity.
Qed.
End InputEquations.

Section OutputEquations.
Implicit Type s : OutputMemoryStream.state.

(** The common shape of the checked writes: [n] bytes asked for, [bs] the
    bytes copied. *)
Lemma checked_write_eq (n : Z) (bs : list byte) s :
  (size <- gets (fun s => capacity s) ;;
   if TINS_UNLIKELY (size <? n) then throw serialization_error
   else
     buffer <- gets (fun s => position s) ;;
     OutputMemoryStream.overwrite (fun m => store m buffer bs) ;;;
     OutputMemoryStream.skip n) s =
    if capacity s <? n then (Throw serialization_error, s)
    else match store (heap s) (position s) bs with
         | Some m' => (Ok tt, produced s m' n)
         | None => (Undefined, s)
         end.
Proof.
  unfold bind, gets, TINS_UNLIKELY, OutputMemoryStream.overwrite. simpl.
  destruct (capacity s <? n); [reflexivity|]. simpl.
  destruct (store (heap s) (position s) bs); reflexivity.
Qed.

Lemma output_skip_eq n s :
  OutputMemoryStream.skip n s = (Ok tt, produced s (heap s) n).
Proof. reflexivity. Qed.

Lemma write_eq {T} {sc : Scalar T} (Hok : ScalarOk T) (value : T) s :
  OutputMemoryStream.write value s =
    if capacity s <? sizeof then (Throw serialization_error, s)
    else match store (heap s) (position s) (object_repr value) with
         | Some m' => (Ok tt, produced s m' sizeof)
         | None => (Undefined, s)
         end.
Proof.
  unfold OutputMemoryStream.write, write_value.
  rewrite (sizeof_uint32 Hok). apply checked_write_eq.
Qed.

Lemma write_range_eq (range : list byte) s :
  OutputMemoryStream.write_range range s =
    let length := to_uint32 (Z.of_nat (List.length range)) in
    if capacity s <? length then (Throw serialization_error, s)
    else match store (heap s) (position s) range with
         | Some m' => (Ok tt, produced s m' length)
         | None => (Undefined, s)
         end.
Proof. unfold OutputMemoryStream.write_range. apply checked_write_eq. Qed.

Lemma write_ptr_eq src ptr length s :
  is_uint32 length ->
  OutputMemoryStream.write_ptr src ptr length s =
    match load src ptr length with
    | None => (Undefined, s)
    | Some range =>
        if capacity s <? length then (Throw serialization_error, s)
        else match store (heap s) (position s) range with
             | Some m' => (Ok tt, produced s m' length)
             | None => (Undefined, s)
             end
    end.
Proof.
  intros Hlen. unfold OutputMemoryStream.write_ptr, bind at 1.
  destruct (load src ptr length) as [range|] eqn:Hload; simpl; [|reflexivity].
  rewrite write_range_eq. cbv zeta.
  rewrite (load_length _ _ _ _ Hload), (to_uint32_small _ Hlen). reflexivity.
Qed.

Lemma write_IPv4Address_eq e address s :
  OutputMemoryStream.write_IPv4Address e address s =
    if capacity s <? 4 then (Throw serialization_error, s)
    else match store (heap s) (position s)
                 (uint_repr e 4 (IPv4Address.to_uint32 address)) with
         | Some m' => (Ok tt, produced s m' 4)
         | None => (Undefined, s)
         end.
Proof.
  unfold OutputMemoryStream.write_IPv4Address.
  rewrite (write_eq (uint32_t_ok e)). reflexivity.
Qed.

Lemma fill_eq size value s :
  OutputMemoryStream.fill size value s =
    if capacity s <? size then (Throw serialization_error, s)
    else match store (heap s) (position s) (repeat value (Z.to_nat size)) with
         | Some m' => (Ok tt, produced s m' size)
         | None => (Undefined, s)
         end.
Proof. unfold OutputMemoryStream.fill. apply checked_write_eq. Qed.
End OutputEquations.

(** ** Reading scalars *)

(** C1: for every scalar type and every stream state, [read<T>()] and
    [read(T&)] throw [malformed_packet] exactly when fewer than [sizeof(T)]
    bytes remain, and throw nothing else; when they return, the value holds
    the [sizeof(T)] bytes found at the current position, unchanged and in
    the order of the buffer, the position has advanced by [sizeof(T)] and
    the remaining count has dropped by [sizeof(T)]; and they do return
    whenever [sizeof(T)] bytes remain and lie inside the buffer. *)
Theorem read_checks_then_copies {T} {sc : Scalar T} (Hok : ScalarOk T)
  (m : memory) (s : InputMemoryStream.t) (Hs : is_uint32 (size_ s)) :
  InputMemoryStream.read_into m s = InputMemoryStream.read m s
  /\ (InputMemoryStream.read m s = (Throw malformed_packet, s)
      <-> size_ s < sizeof)
  /\ (forall e, fst (InputMemoryStream.read m s) = Throw e ->
        e = malformed_packet /\ size_ s < sizeof)
  /\ (forall value s', InputMemoryStream.read m s = (Ok value, s') ->
        sizeof <= size_ s
        /\ load m (buffer_ s) sizeof = Some (object_repr value)
        /\ Z.of_nat (length (object_repr value)) = sizeof
        /\ buffer_ s' = buffer_ s + sizeof
        /\ size_ s' = size_ s - sizeof)
  /\ (sizeof <= size_ s -> in_bounds m (buffer_ s) sizeof = true ->
        exists value s', InputMemoryStream.read m s = (Ok value, s')).
Proof.
  pose proof (sizeof_range (T := T)) as Hsz. unfold is_uint32 in Hs.
  split; [symmetry; apply read_read_into|].
  rewrite (read_eq m Hok).
  destruct (size_ s <? sizeof) eqn:Hlt.
  - apply Z.ltb_lt in Hlt.
    split. { split; [intros _; exact Hlt | reflexivity]. }
    split. { intros e He. simpl in He. inversion He. split; [reflexivity | exact Hlt]. }
    split. { intros value s' H. discriminate. }
    intros Hge. lia.
  - apply Z.ltb_ge in Hlt.
    destruct (load m (buffer_ s) sizeof) as [bs|] eqn:Hload.
    + pose proof (load_length _ _ _ _ Hload) as Hlen.
      split. { split; [discriminate | intros; lia]. }
      split. { intros e He. discriminate. }
      split.
      { intros value s' H. inversion H; subst; clear H.
        rewrite (object_from_repr bs Hlen).
        repeat split; try assumption; try reflexivity.
        simpl. apply to_uint32_small. unfold is_uint32. lia. }
      intros _ _. eauto.
    + split. { split; [discriminate | intros; lia]. }
      split. { intros e He. discriminate. }
      split. { intros value s' H. discriminate. }
      intros _ Hb. apply load_in_bounds in Hb. destruct Hb as [bs Hb].
      congruence.
Qed.

Lemma read_checks_then_copies_witness :
  InputMemoryStream.read (sc := uint32_t LittleEndian) scenario_buffer
    (InputMemoryStream.make 0 6) = (Throw malformed_packet, InputMemoryStream.make 0 6)
  <-> 6 < 4.
Proof.
  assert (Hs : is_uint32 (size_ (InputMemoryStream.make 0 6)))
    by (unfold is_uint32; rewrite UINT32_MOD_eq; simpl; lia).
  exact (proj1 (proj2 (read_checks_then_copies (uint32_t_ok LittleEndian)
                         scenario_buffer
                         (InputMemoryStream.make 0 6) Hs))).
Defined.

(** ** Queries that leave the stream alone *)

(** The constructor from a vector narrows [data.size()] to 32 bits; for a
    vector whose size a [uint32_t] holds it builds the stream that the
    constructor from pointer and length builds. *)
Lemma of_vector_as_make (data : list byte) :
  is_uint32 (Z.of_nat (length data)) ->
  InputMemoryStream.of_vector data
  = InputMemoryStream.make 0 (Z.of_nat (length data)).
Proof.
  intros Hfit. unfold InputMemoryStream.of_vector, InputMemoryStream.make.
  rewrite (to_uint32_small _ Hfit). reflexivity.
Qed.

(** On a stream freshly constructed over a buffer [B] whose length [L] a
    [uint32_t] holds, from pointer and length or from the vector itself,
    [can_read(n)] returns true when [n <= L] and false when [n > L], and
    the stream is afterwards what it was. *)
Lemma can_read_fresh (B : memory) (buffer n : Z)
  (HL : is_uint32 (Z.of_nat (length B))) (Hn : is_uint32 n) :
  let L := Z.of_nat (length B) in
  forall s, s = InputMemoryStream.make buffer L
            \/ s = InputMemoryStream.of_vector B ->
    (n <= L -> InputMemoryStream.can_read n s = (Ok true, s))
    /\ (n > L -> InputMemoryStream.can_read n s = (Ok false, s)).
Proof.
  intros L s Hfresh. rewrite can_read_eq.
  assert (Hsize : size_ s = L).
  { destruct Hfresh as [-> | ->]; [reflexivity|].
    rewrite (of_vector_as_make B HL). reflexivity. }
  rewrite Hsize. split; intros Hcmp.
  - apply Z.leb_le in Hcmp. rewrite Hcmp. reflexivity.
  - replace (n <=? L) with false by (symmetry; apply Z.leb_gt; lia).
    reflexivity.
Qed.

Lemma can_read_fresh_witness :
  let s := InputMemoryStream.of_vector scenario_buffer in
  (4 <= 6 -> InputMemoryStream.can_read 4 s = (Ok true, s))
  /\ (4 > 6 -> InputMemoryStream.can_read 4 s = (Ok false, s)).
Proof.
  assert (H6 : is_uint32 6) by (unfold is_uint32; rewrite UINT32_MOD_eq; lia).
  assert (H4 : is_uint32 4) by (unfold is_uint32; rewrite UINT32_MOD_eq; lia).
  exact (can_read_fresh scenario_buffer 0 4 H6 H4
           (InputMemoryStream.of_vector scenario_buffer) (or_intror eq_refl)).
Defined.

(** C5, at the input where the code departs from it: the stream
    constructed from a vector of 2^32 + 6 bytes records a remaining count
    of 6, the size of the vector narrowed to 32 bits, and [can_read(7)]
    on it returns false although the buffer holds 7 bytes and more; the
    query itself leaves the stream as it was. *)
Theorem vector_stream_forgets_4GiB :
  let B := repeat Init.Byte.x00 (Z.to_nat (UINT32_MOD + 6)) in
  let s := InputMemoryStream.of_vector B in
  Z.of_nat (length B) = 4294967302
  /\ 7 <= Z.of_nat (length B)
  /\ size_ s = 6
  /\ InputMemoryStream.can_read 7 s = (Ok false, s).
Proof.
  intros B s.
  assert (Hlen : Z.of_nat (length B) = 4294967302).
  { unfold B. rewrite repeat_length, Z2Nat.id; [reflexivity|].
    rewrite UINT32_MOD_eq. lia. }
  assert (Hsize : size_ s = 6).
  { unfold s, InputMemoryStream.of_vector. cbn [size_]. rewrite Hlen.
    reflexivity. }
  clearbody B. clearbody s.
  split; [exact Hlen|]. split; [lia|]. split; [exact Hsize|].
  rewrite can_read_eq, Hsize. reflexivity.
Qed.

(** C10: the conversion to [bool] yields true exactly when the remaining
    byte count is positive, and the stream is afterwards what it was. *)
Theorem operator_bool_spec (s : InputMemoryStream.t) :
  exists b, InputMemoryStream.operator_bool s = (Ok b, s)
            /\ (b = true <-> size_ s > 0).
Proof.
  exists (0 <? size_ s). split; [reflexivity|].
  rewrite Z.ltb_lt. lia.
Qed.

(** ** The reading scenario *)

(** C8: on the buffer 01 00 00 00 AB CD, on a little-endian machine, the
    first read of a [uint32_t] yields 1, the following read of a
    [uint16_t] yields 0xCDAB, and then every bounds-checked read of a
    non-zero number of bytes throws [malformed_packet]. *)
Theorem scenario_two_reads_then_exhausted :
  let s0 := InputMemoryStream.make 0 6 in
  exists s1 s2,
    InputMemoryStream.read (sc := uint32_t LittleEndian) scenario_buffer s0
      = (Ok 1, s1)
    /\ InputMemoryStream.read (sc := uint16_t LittleEndian) scenario_buffer s1
       = (Ok 0xCDAB, s2)
    /\ forall op n,
        input_typed op -> input_request op = Some n -> n <> 0 ->
        exec_input scenario_buffer op s2 = (Throw malformed_packet, s2).
Proof.
  exists {| buffer_ := 4; size_ := 2 |}, {| buffer_ := 6; size_ := 0 |}.
  split; [reflexivity|]. split; [reflexivity|].
  intros op n Hty Hreq Hn.
  destruct op; simpl in Hty, Hreq; try discriminate;
    injection Hreq as <-; unfold exec_input, void, bind.
  - pose proof (sizeof_range (T := T)).
    rewrite (read_eq _ Hty). simpl size_.
    replace (0 <? sizeof) with true by (symmetry; apply Z.ltb_lt; lia).
    reflexivity.
  - pose proof (sizeof_range (T := T)).
    rewrite (read_into_eq _ Hty). simpl size_.
    replace (0 <? sizeof) with true by (symmetry; apply Z.ltb_lt; lia).
    reflexivity.
  - rewrite read_IPv4Address_eq. reflexivity.
  - rewrite read_IPv6Address_eq. reflexivity.
  - rewrite (read_HWAddress_eq _ _ _ Hty). simpl size_.
    unfold HWAddress.address_size in Hn, Hty. unfold is_uint32 in Hty.
    replace (0 <? Z.of_nat n0) with true by (symmetry; apply Z.ltb_lt; lia).
    reflexivity.
  - rewrite read_buffer_eq. simpl size_. unfold is_uint32 in Hty.
    replace (0 <? output_buffer_size) with true
      by (symmetry; apply Z.ltb_lt; lia).
    reflexivity.
Qed.

Lemma scenario_two_reads_then_exhausted_witness :
  exec_input scenario_buffer (in_read_buffer 1) {| buffer_ := 6; size_ := 0 |}
  = (Throw malformed_packet, {| buffer_ := 6; size_ := 0 |}).
Proof.
  destruct scenario_two_reads_then_exhausted as (s1 & s2 & H1 & H2 & H3).
  injection H1 as <-. injection H2 as <-.
  apply (H3 (in_read_buffer 1) 1).
  - unfold input_typed, is_uint32. rewrite UINT32_MOD_eq. lia.
  - reflexivity.
  - lia.
Defined.

(** The copy is raw: the same four bytes read on a big-endian machine are
    the number 0x01000000, no byte is reordered on the way. *)
Example scenario_first_read_big_endian :
  InputMemoryStream.read (sc := uint32_t BigEndian) scenario_buffer
    (InputMemoryStream.make 0 6)
  = (Ok 0x01000000, {| buffer_ := 4; size_ := 2 |}).
Proof. reflexivity. Qed.

(** A bulk read of the last two bytes, and a hardware address of six
    bytes read from the whole buffer. *)
Example scenario_bulk_read :
  InputMemoryStream.read_buffer scenario_buffer 2 {| buffer_ := 4; size_ := 2 |}
  = (Ok [Init.Byte.xab; Init.Byte.xcd], {| buffer_ := 6; size_ := 0 |}).
Proof. reflexivity. Qed.

Example scenario_hardware_address :
  InputMemoryStream.read_HWAddress scenario_buffer 6 (InputMemoryStream.make 0 6)
  = (Ok {| HWAddress.buffer_ := scenario_buffer |},
     {| buffer_ := 6; size_ := 0 |}).
Proof. reflexivity. Qed.

(** ** Filling *)

(** C9: [fill(n, v)] throws [serialization_error] exactly when the
    remaining capacity is below [n], and throws nothing else; when it
    returns, the [n] bytes from the old position on are [n] copies of [v],
    every other byte is as before, the position has advanced by [n] and
    the remaining capacity has dropped by [n]; and it does return whenever
    the capacity suffices and the [n] bytes lie inside the buffer. *)
Theorem fill_checks_then_fills (n : Z) (v : byte)
  (s : OutputMemoryStream.state)
  (Hs : is_uint32 (capacity s)) (Hn : is_uint32 n) :
  (OutputMemoryStream.fill n v s = (Throw serialization_error, s)
   <-> capacity s < n)
  /\ (forall e, fst (OutputMemoryStream.fill n v s) = Throw e ->
        e = serialization_error /\ capacity s < n)
  /\ (forall s', OutputMemoryStream.fill n v s = (Ok tt, s') ->
        n <= capacity s
        /\ load (heap s') (position s) n = Some (repeat v (Z.to_nat n))
        /\ heap s' = firstn (Z.to_nat (position s)) (heap s)
                       ++ repeat v (Z.to_nat n)
                       ++ skipn (Z.to_nat (position s) + Z.to_nat n) (heap s)
        /\ position s' = position s + n
        /\ capacity s' = capacity s - n)
  /\ (n <= capacity s -> in_bounds (heap s) (position s) n = true ->
        exists s', OutputMemoryStream.fill n v s = (Ok tt, s')).
Proof.
  unfold is_uint32 in Hs, Hn.
  assert (Hlen : Z.of_nat (length (repeat v (Z.to_nat n))) = n)
    by (rewrite repeat_length; lia).
  rewrite fill_eq.
  destruct (capacity s <? n) eqn:Hlt.
  - apply Z.ltb_lt in Hlt.
    split. { split; [intros _; exact Hlt | reflexivity]. }
    split. { intros e He. simpl in He. inversion He. split; [reflexivity | exact Hlt]. }
    split. { intros s' H. discriminate. }
    intros Hge. lia.
  - apply Z.ltb_ge in Hlt.
    destruct (store (heap s) (position s) (repeat v (Z.to_nat n)))
      as [m'|] eqn:Hstore.
    + split. { split; [discriminate | intros; lia]. }
      split. { intros e He. discriminate. }
      split.
      { intros s' H. inversion H; subst; clear H. simpl.
        split; [exact Hlt|].
        split. { rewrite <- Hlen at 1. eapply load_store. exact Hstore. }
        split. { apply store_shape in Hstore. rewrite repeat_length in Hstore.
                 exact Hstore. }
        split; [reflexivity|].
        apply to_uint32_small. unfold is_uint32. lia. }
      intros _ _. eauto.
    + split. { split; [discriminate | intros; lia]. }
      split. { intros e He. discriminate. }
      split. { intros s' H. discriminate. }
      intros _ Hb. rewrite <- Hlen in Hb.
      apply store_in_bounds in Hb. destruct Hb as [m' Hb]. congruence.
Qed.

Lemma fill_checks_then_fills_witness :
  let s := {| OutputMemoryStream.mem := scenario_buffer;
              OutputMemoryStream.stream := OutputMemoryStream.make 2 4 |} in
  OutputMemoryStream.fill 3 Init.Byte.xff s = (Throw serialization_error, s)
  <-> 4 < 3.
Proof.
  assert (H4 : is_uint32 4) by (unfold is_uint32; rewrite UINT32_MOD_eq; lia).
  assert (H3 : is_uint32 3) by (unfold is_uint32; rewrite UINT32_MOD_eq; lia).
  exact (proj1 (fill_checks_then_fills 3 Init.Byte.xff
                  {| OutputMemoryStream.mem := scenario_buffer;
                     OutputMemoryStream.stream := OutputMemoryStream.make 2 4 |}
                  H4 H3)).
Defined.

(** The scenario of the 3-byte buffer: a 4-byte scalar does not fit, the
    write throws and the buffer keeps its zeros. *)
Example write_uint32_into_three_bytes :
  let s := {| OutputMemoryStream.mem := repeat Init.Byte.x00 3;
              OutputMemoryStream.stream := OutputMemoryStream.make 0 3 |} in
  OutputMemoryStream.write (sc := uint32_t LittleEndian) 0x01020304 s
  = (Throw serialization_error, s).
Proof. reflexivity. Qed.

(** A fill inside the buffer, run. *)
Example fill_three_of_six :
  OutputMemoryStream.fill 3 Init.Byte.xff
    {| OutputMemoryStream.mem := scenario_buffer;
       OutputMemoryStream.stream := OutputMemoryStream.make 2 4 |}
  = (Ok tt,
     {| OutputMemoryStream.mem :=
          [Init.Byte.x01; Init.Byte.x00; Init.Byte.xff; Init.Byte.xff;
           Init.Byte.xff; Init.Byte.xcd];
        OutputMemoryStream.stream := OutputMemoryStream.make 5 1 |}).
Proof. reflexivity. Qed.

(** ** Writing, then reading back *)

(** Bytes that fit the first [L] bytes of a buffer can be stored at its
    start and are found there afterwards. *)
Lemma store_then_load (m : memory) (buffer L : Z) (bs : list byte) :
  in_bounds m buffer L = true -> Z.of_nat (length bs) <= L ->
  exists m', store m buffer bs = Some m'
             /\ load m' buffer (Z.of_nat (length bs)) = Some bs.
Proof.
  intros Hb Hlen. apply in_bounds_true in Hb.
  destruct (store_in_bounds m buffer bs) as [m' Hstore].
  { apply in_bounds_true. lia. }
  exists m'. split; [exact Hstore|]. eapply load_store. exact Hstore.
Qed.

Lemma ltb_false_of_le (a b : Z) : b <= a -> (a <? b) = false.
Proof. intros H. apply Z.ltb_ge. exact H. Qed.

(** C3: over a buffer of [L] bytes, [L] at least the width of the value,
    a scalar written by an [OutputMemoryStream] and read back by an
    [InputMemoryStream] over the same bytes has the object representation
    of the value written, and is that value; an [IPv4Address], an
    [IPv6Address] or a [HWAddress<n>] written and read back is the address
    written. *)
Theorem write_then_read_round_trip (m : memory) (buffer L : Z)
  (HL : is_uint32 L) (Hb : in_bounds m buffer L = true) :
  let out := {| OutputMemoryStream.mem := m;
                OutputMemoryStream.stream := OutputMemoryStream.make buffer L |} in
  let inp := InputMemoryStream.make buffer L in
  (forall T (sc : Scalar T) (v : T), ScalarOk T -> sizeof <= L ->
     exists out' r inp',
       OutputMemoryStream.write v out = (Ok tt, out')
       /\ InputMemoryStream.read (heap out') inp = (Ok r, inp')
       /\ object_repr r = object_repr v
       /\ (valid v -> r = v))
  /\ (forall e (a : IPv4Address.t), IPv4Address.valid a -> 4 <= L ->
        exists out' inp',
          OutputMemoryStream.write_IPv4Address e a out = (Ok tt, out')
          /\ InputMemoryStream.read_IPv4Address (heap out') e inp = (Ok a, inp'))
  /\ (forall a : IPv6Address.t, IPv6Address.valid a -> 16 <= L ->
        exists out' inp',
          OutputMemoryStream.write_IPv6Address a out = (Ok tt, out')
          /\ InputMemoryStream.read_IPv6Address (heap out') inp = (Ok a, inp'))
  /\ (forall n (a : HWAddress.t n), HWAddress.valid a -> Z.of_nat n <= L ->
        exists out' inp',
          OutputMemoryStream.write_HWAddress a out = (Ok tt, out')
          /\ InputMemoryStream.read_HWAddress (heap out') n inp = (Ok a, inp')).
Proof.
  intros out inp. unfold is_uint32 in HL.
  split; [|split; [|split]].
  - intros T sc v Hok Hw.
    pose proof (object_repr_length v) as Hlen.
    destruct (store_then_load m buffer L (object_repr v) Hb) as (m' & Hst & Hld);
      [lia|].
    rewrite Hlen in Hld.
    rewrite (write_eq Hok). simpl.
    rewrite (ltb_false_of_le _ _ Hw), Hst.
    do 3 eexists. split; [reflexivity|].
    rewrite (read_eq _ Hok). simpl.
    rewrite (ltb_false_of_le _ _ Hw), Hld.
    split; [reflexivity|]. split.
    + apply object_from_repr. exact Hlen.
    + apply from_object_repr.
  - intros e a Ha Hw.
    pose proof (uint32_t_ok e) as Hok.
    pose proof (object_repr_length (sc := uint32_t e) (IPv4Address.to_uint32 a))
      as Hlen.
    simpl in Hlen. change (Z.of_nat 4) with 4 in Hlen.
    destruct (store_then_load m buffer L
                (uint_repr e 4 (IPv4Address.to_uint32 a)) Hb)
      as (m' & Hst & Hld); [lia|].
    rewrite Hlen in Hld.
    rewrite write_IPv4Address_eq. simpl.
    rewrite (ltb_false_of_le _ _ Hw), Hst.
    do 2 eexists. split; [reflexivity|].
    rewrite read_IPv4Address_eq. simpl.
    rewrite (ltb_false_of_le _ _ Hw), Hld.
    do 2 f_equal. destruct a as [ip]. unfold IPv4Address.from_uint32. f_equal.
    simpl. apply (from_object_repr (sc := uint32_t e)).
    unfold IPv4Address.valid, is_uint32 in Ha. simpl in Ha.
    simpl. unfold uint_valid. exact Ha.
  - intros a Ha Hw. unfold IPv6Address.valid in Ha.
    destruct a as [bs]. simpl in Ha.
    unfold IPv6Address.address_size in Ha.
    destruct (store_then_load m buffer L bs Hb) as (m' & Hst & Hld); [lia|].
    rewrite Ha in Hld.
    unfold OutputMemoryStream.write_IPv6Address. rewrite write_range_eq.
    simpl. rewrite Ha. change (to_uint32 16) with 16.
    rewrite (ltb_false_of_le _ _ Hw), Hst.
    do 2 eexists. split; [reflexivity|].
    rewrite read_IPv6Address_eq. simpl.
    rewrite (ltb_false_of_le _ _ Hw), Hld. reflexivity.
  - intros n a Ha Hw. unfold HWAddress.valid in Ha.
    destruct a as [bs]. simpl in Ha. subst n.
    assert (Hn : is_uint32 (Z.of_nat (length bs))) by (unfold is_uint32; lia).
    destruct (store_then_load m buffer L bs Hb) as (m' & Hst & Hld); [lia|].
    unfold OutputMemoryStream.write_HWAddress. rewrite write_range_eq.
    simpl. rewrite (to_uint32_small _ Hn).
    rewrite (ltb_false_of_le _ _ Hw), Hst.
    do 2 eexists. split; [reflexivity|].
    rewrite (read_HWAddress_eq _ _ _ Hn). simpl.
    rewrite (ltb_false_of_le _ _ Hw), Hld. reflexivity.
Qed.

Lemma write_then_read_round_trip_witness :
  let out := {| OutputMemoryStream.mem := scenario_buffer;
                OutputMemoryStream.stream := OutputMemoryStream.make 0 6 |} in
  exists out' r inp',
    OutputMemoryStream.write (sc := uint32_t BigEndian) 0xDEADBEEF out
    = (Ok tt, out')
    /\ InputMemoryStream.read (sc := uint32_t BigEndian) (heap out')
         (InputMemoryStream.make 0 6) = (Ok r, inp')
    /\ object_repr (Scalar := uint32_t BigEndian) r
       = object_repr (Scalar := uint32_t BigEndian) 0xDEADBEEF
    /\ (valid (Scalar := uint32_t BigEndian) 0xDEADBEEF -> r = 0xDEADBEEF).
Proof.
  assert (H6 : is_uint32 6) by (unfold is_uint32; rewrite UINT32_MOD_eq; lia).
  assert (Hw : sizeof (Scalar := uint32_t BigEndian) <= 6) by (simpl; lia).
  exact (proj1 (write_then_read_round_trip scenario_buffer 0 6 H6 eq_refl)
           Z (uint32_t BigEndian) 0xDEADBEEF (uint32_t_ok BigEndian) Hw).
Defined.

(** The round trip, run: a [uint16_t] on either byte order, and a hardware
    address of six bytes. *)
Example round_trip_uint16_little_endian :
  let out := {| OutputMemoryStream.mem := scenario_buffer;
                OutputMemoryStream.stream := OutputMemoryStream.make 0 6 |} in
  let out' := snd (OutputMemoryStream.write (sc := uint16_t LittleEndian) 0xBEEF out) in
  heap out' = [Init.Byte.xef; Init.Byte.xbe; Init.Byte.x00; Init.Byte.x00;
               Init.Byte.xab; Init.Byte.xcd]
  /\ fst (InputMemoryStream.read (sc := uint16_t LittleEndian) (heap out')
            (InputMemoryStream.make 0 6)) = Ok 0xBEEF.
Proof. split; reflexivity. Qed.

Example round_trip_uint16_big_endian :
  let out := {| OutputMemoryStream.mem := scenario_buffer;
                OutputMemoryStream.stream := OutputMemoryStream.make 0 6 |} in
  let out' := snd (OutputMemoryStream.write (sc := uint16_t BigEndian) 0xBEEF out) in
  heap out' = [Init.Byte.xbe; Init.Byte.xef; Init.Byte.x00; Init.Byte.x00;
               Init.Byte.xab; Init.Byte.xcd]
  /\ fst (InputMemoryStream.read (sc := uint16_t BigEndian) (heap out')
            (InputMemoryStream.make 0 6)) = Ok 0xBEEF.
Proof. split; reflexivity. Qed.

(** ** What a call does to the stream *)

Lemma void_eq {St A} (c : M St A) (s : St) :
  void c s = match c s with
             | (Ok _, s') => (Ok tt, s')
             | (Throw e, s') => (Throw e, s')
             | (Undefined, s') => (Undefined, s')
             end.
Proof.
  unfold void, bind, ret. destruct (c s) as [[a|e|] s']; reflexivity.
Qed.

(** A bounds-checked read either throws and leaves the stream as it is,
    or consumes the bytes it asked for, or is undefined. *)
Lemma checked_read_eq (m : memory) (op : input_op) (n : Z)
  (s : InputMemoryStream.t) :
  input_typed op -> input_request op = Some n ->
  exec_input m op s =
    if size_ s <? n then (Throw malformed_packet, s)
    else match load m (buffer_ s) n with
         | Some _ => (Ok tt, consumed s n)
         | None => (Undefined, s)
         end.
Proof.
  intros Hty Hreq.
  destruct op; simpl in Hty, Hreq; try discriminate;
    injection Hreq as <-; unfold exec_input; rewrite void_eq.
  - rewrite (read_eq _ Hty).
    destruct (size_ s <? sizeof); [reflexivity|].
    destruct (load m (buffer_ s) sizeof); reflexivity.
  - rewrite (read_into_eq _ Hty).
    destruct (size_ s <? sizeof); [reflexivity|].
    destruct (load m (buffer_ s) sizeof); reflexivity.
  - rewrite read_IPv4Address_eq. change (Z.of_nat 4) with 4.
    destruct (size_ s <? 4); [reflexivity|].
    destruct (load m (buffer_ s) 4); reflexivity.
  - rewrite read_IPv6Address_eq. unfold IPv6Address.address_size.
    destruct (size_ s <? 16); [reflexivity|].
    destruct (load m (buffer_ s) 16); reflexivity.
  - rewrite (read_HWAddress_eq _ _ _ Hty). unfold HWAddress.address_size.
    destruct (size_ s <? Z.of_nat n0); [reflexivity|].
    destruct (load m (buffer_ s) (Z.of_nat n0)); reflexivity.
  - rewrite read_buffer_eq.
    destruct (size_ s <? output_buffer_size); [reflexivity|].
    destruct (load m (buffer_ s) output_buffer_size); reflexivity.
Qed.

(** A bounds-checked write either throws and leaves buffer and stream as
    they are, or produces the bytes it asked for, or is undefined. *)
Lemma checked_write_cases (op : output_op) (n : Z)
  (s : OutputMemoryStream.state) :
  output_typed op -> output_request op = Some n ->
  exists bs, Z.of_nat (length bs) = n /\
  exec_output op s =
    if capacity s <? n then (Throw serialization_error, s)
    else match store (heap s) (position s) bs with
         | Some m' => (Ok tt, produced s m' n)
         | None => (Undefined, s)
         end.
Proof.
  intros Hty Hreq.
  destruct op; simpl in Hty, Hreq; try discriminate;
    injection Hreq as <-; unfold exec_output.
  - exists (object_repr value). split; [apply object_repr_length|].
    apply write_eq. exact Hty.
  - exists range. split; [reflexivity|].
    rewrite write_range_eq. cbv zeta. rewrite (to_uint32_small _ Hty).
    reflexivity.
  - destruct Hty as [Hlen Hsrc].
    destruct (load_in_bounds _ _ _ Hsrc) as [range Hload].
    exists range. split; [eapply load_length; exact Hload|].
    rewrite (write_ptr_eq _ _ _ _ Hlen), Hload. reflexivity.
  - exists (uint_repr e 4 (IPv4Address.to_uint32 address)).
    split; [apply (object_repr_length (ScalarOk := uint32_t_ok e))|].
    apply write_IPv4Address_eq.
  - exists (IPv6Address.bytes address). split; [reflexivity|].
    unfold OutputMemoryStream.write_IPv6Address.
    rewrite write_range_eq. cbv zeta. rewrite (to_uint32_small _ Hty).
    reflexivity.
  - exists (HWAddress.bytes address). split; [reflexivity|].
    unfold OutputMemoryStream.write_HWAddress.
    rewrite write_range_eq. cbv zeta. rewrite (to_uint32_small _ Hty).
    reflexivity.
  - exists (repeat value (Z.to_nat size)).
    split; [rewrite repeat_length; unfold is_uint32 in Hty; lia|].
    apply fill_eq.
Qed.

(** The check precedes the copy: a write that does not fit throws
    [serialization_error], and buffer, position and capacity are as they
    were.  This covers the scalar, range, pointer-and-length and address
    writes and [fill], for byte counts a [uint32_t] holds. *)
Lemma write_that_does_not_fit (op : output_op) (n : Z)
  (s : OutputMemoryStream.state) :
  output_typed op -> output_request op = Some n -> capacity s < n ->
  exec_output op s = (Throw serialization_error, s).
Proof.
  intros Hty Hreq Hlt.
  destruct (checked_write_cases op n s Hty Hreq) as (bs & _ & ->).
  apply Z.ltb_lt in Hlt. rewrite Hlt. reflexivity.
Qed.

(** Likewise a read for which too few bytes remain. *)
Lemma read_that_does_not_fit (m : memory) (op : input_op) (n : Z)
  (s : InputMemoryStream.t) :
  input_typed op -> input_request op = Some n -> size_ s < n ->
  exec_input m op s = (Throw malformed_packet, s).
Proof.
  intros Hty Hreq Hlt. rewrite (checked_read_eq m op n s Hty Hreq).
  apply Z.ltb_lt in Hlt. rewrite Hlt. reflexivity.
Qed.

(** ** The unchecked skip *)

(** C6, as stated, fails: over a buffer of 16 bytes, once the 16 bytes are
    skipped none remains; skipping 4294967295 more exceeds what remains,
    and the remaining count wraps to 1, which is not above the length of
    the buffer; no [can_read] of more than 16 bytes then returns true. *)
Lemma skip_wraps_below_buffer_length :
  let s0 := InputMemoryStream.make 0 16 in
  exists s1 s2,
    InputMemoryStream.skip 16 s0 = (Ok tt, s1)
    /\ InputMemoryStream.skip 4294967295 s1 = (Ok tt, s2)
    /\ 4294967295 > size_ s1
    /\ size_ s2 = 1
    /\ ~ size_ s2 > 16
    /\ forall k, k > 16 -> InputMemoryStream.can_read k s2 = (Ok false, s2).
Proof.
  exists {| buffer_ := 16; size_ := 0 |},
         {| buffer_ := 4294967311; size_ := 1 |}.
  split; [reflexivity|]. split; [reflexivity|]. simpl.
  split; [lia|]. split; [reflexivity|]. split; [lia|].
  intros k Hk. rewrite can_read_eq. simpl.
  replace (k <=? 1) with false by (symmetry; apply Z.leb_gt; lia).
  reflexivity.
Qed.

(** C6, amended: [skip(n)], of either stream, sets the remaining count
    [r] to [(r - n) mod 2^32] and advances the position by [n], for every
    [n]; when [n > r] the new count is [r - n + 2^32], which is above [r],
    so that [can_read(r + 1)] then returns true; and it is above a buffer
    length [L] whenever [n - r < 2^32 - L], as on a stream that has
    consumed nothing, where [r = L]. *)
Theorem skip_wraps_remaining (n r : Z) (Hn : is_uint32 n) (Hr : is_uint32 r) :
  (forall s : InputMemoryStream.t, size_ s = r ->
     exists s', InputMemoryStream.skip n s = (Ok tt, s')
       /\ size_ s' = (r - n) mod UINT32_MOD
       /\ buffer_ s' = buffer_ s + n
       /\ (n <= r -> size_ s' = r - n)
       /\ (n > r ->
             size_ s' = r - n + UINT32_MOD
             /\ size_ s' > r
             /\ InputMemoryStream.can_read (r + 1) s' = (Ok true, s')
             /\ forall L, n - r < UINT32_MOD - L ->
                  size_ s' > L
                  /\ InputMemoryStream.can_read (L + 1) s' = (Ok true, s')))
  /\ (forall s : OutputMemoryStream.state, capacity s = r ->
        exists s', OutputMemoryStream.skip n s = (Ok tt, s')
          /\ capacity s' = (r - n) mod UINT32_MOD
          /\ position s' = position s + n
          /\ heap s' = heap s
          /\ (n <= r -> capacity s' = r - n)
          /\ (n > r ->
                capacity s' = r - n + UINT32_MOD
                /\ capacity s' > r
                /\ forall L, n - r < UINT32_MOD - L -> capacity s' > L)).
Proof.
  unfold is_uint32 in Hn, Hr. pose proof UINT32_MOD_eq as HM.
  assert (Hsmall : n <= r -> to_uint32 (r - n) = r - n).
  { intros Hle. apply to_uint32_small. unfold is_uint32. lia. }
  assert (Hwrap : n > r -> to_uint32 (r - n) = r - n + UINT32_MOD).
  { intros Hgt. apply to_uint32_wrap. lia. }
  split.
  - intros s <-. exists (consumed s n).
    split; [reflexivity|]. unfold consumed. cbn [size_ buffer_].
    split; [reflexivity|]. split; [reflexivity|].
    split; [exact Hsmall|].
    intros Hgt. rewrite can_read_eq. cbn [size_ buffer_]. rewrite (Hwrap Hgt).
    split; [reflexivity|]. split; [lia|].
    split.
    + replace (size_ s + 1 <=? size_ s - n + UINT32_MOD) with true
        by (symmetry; apply Z.leb_le; lia).
      reflexivity.
    + intros L HL. split; [lia|].
      rewrite can_read_eq. cbn [size_ buffer_].
      replace (L + 1 <=? size_ s - n + UINT32_MOD) with true
        by (symmetry; apply Z.leb_le; lia).
      reflexivity.
  - intros s <-. exists (produced s (heap s) n).
    split; [reflexivity|]. unfold produced.
    cbn [OutputMemoryStream.size_ OutputMemoryStream.buffer_
         OutputMemoryStream.stream OutputMemoryStream.mem].
    split; [reflexivity|]. split; [reflexivity|]. split; [reflexivity|].
    split; [exact Hsmall|].
    intros Hgt. rewrite (Hwrap Hgt).
    split; [reflexivity|]. split; [lia|].
    intros L HL. lia.
Qed.

Lemma skip_wraps_remaining_witness :
  exists s', InputMemoryStream.skip 7 (InputMemoryStream.make 0 6) = (Ok tt, s')
             /\ size_ s' = (6 - 7) mod UINT32_MOD
             /\ size_ s' = 4294967295.
Proof.
  assert (H7 : is_uint32 7) by (unfold is_uint32; rewrite UINT32_MOD_eq; lia).
  assert (H6 : is_uint32 6) by (unfold is_uint32; rewrite UINT32_MOD_eq; lia).
  destruct (proj1 (skip_wraps_remaining 7 6 H7 H6)
              (InputMemoryStream.make 0 6) eq_refl)
    as (s' & Hskip & Hsize & _).
  exists s'. split; [exact Hskip|]. split; [exact Hsize|].
  rewrite Hsize. vm_compute. reflexivity.
Defined.

(** ** The remaining count along a sequence of calls *)

(** C4, as stated, fails: over a buffer of 6 bytes, [size(10)] leaves a
    remaining count of 10 with nothing consumed, and [skip(7)] leaves a
    remaining count of 4294967295 with 7 bytes consumed. *)
Lemma remaining_exceeds_buffer :
  (exists s, run_input scenario_buffer [in_set_size 10]
               (InputMemoryStream.make 0 6) = Some s
             /\ ~ size_ s <= 6 - (buffer_ s - 0))
  /\ (exists s, run_input scenario_buffer [in_skip 7]
                  (InputMemoryStream.make 0 6) = Some s
                /\ ~ size_ s <= 6 - (buffer_ s - 0)).
Proof.
  split.
  - exists {| buffer_ := 0; size_ := 10 |}. split; [reflexivity|]. simpl. lia.
  - exists {| buffer_ := 7; size_ := 4294967295 |}.
    split; [reflexivity|]. simpl. lia.
Qed.

Lemma input_request_range (op : input_op) (n : Z) :
  input_typed op -> input_request op = Some n -> is_uint32 n.
Proof.
  intros Hty Hreq. pose proof UINT32_MOD_eq as HM.
  destruct op; simpl in Hty, Hreq; try discriminate; injection Hreq as <-.
  - pose proof (sizeof_range (T := T)). unfold is_uint32. lia.
  - pose proof (sizeof_range (T := T)). unfold is_uint32. lia.
  - unfold is_uint32. change (Z.of_nat 4) with 4. lia.
  - unfold is_uint32, IPv6Address.address_size. lia.
  - exact Hty.
  - exact Hty.
Qed.

(** The stream after one call: what the call leaves of the count, and
    where it leaves the position. *)
Lemma exec_input_effect (m : memory) (op : input_op) (s : InputMemoryStream.t) :
  input_typed op -> is_uint32 (size_ s) ->
  let s' := snd (exec_input m op s) in
  is_uint32 (size_ s')
  /\ (input_contract op s ->
      0 <= buffer_ s' - buffer_ s
      /\ size_ s' + (buffer_ s' - buffer_ s) <= size_ s).
Proof.
  intros Hty Hs. pose proof UINT32_MOD_eq as HM.
  destruct (input_request op) as [n|] eqn:Hreq.
  - pose proof (input_request_range op n Hty Hreq) as Hn.
    unfold is_uint32 in Hs, Hn.
    rewrite (checked_read_eq m op n s Hty Hreq).
    destruct (size_ s <? n) eqn:Hlt; [cbn [snd]; unfold is_uint32; lia|].
    apply Z.ltb_ge in Hlt.
    destruct (load m (buffer_ s) n); [|cbn [snd]; unfold is_uint32; lia].
    cbn [snd]. unfold consumed. cbn [size_ buffer_].
    rewrite (to_uint32_small (size_ s - n)) by (unfold is_uint32; lia).
    unfold is_uint32. lia.
  - unfold is_uint32 in Hs.
    destruct op; simpl in Hreq; try discriminate; simpl in Hty;
      unfold exec_input; rewrite ?void_eq;
      cbn [InputMemoryStream.skip InputMemoryStream.can_read
           InputMemoryStream.pointer InputMemoryStream.size
           InputMemoryStream.set_size InputMemoryStream.operator_bool
           modify gets snd size_ buffer_ input_contract];
      try (unfold is_uint32; lia).
    + split; [apply to_uint32_range|]. intros Hc. unfold is_uint32 in Hty.
      rewrite (to_uint32_small (size_ s - size)) by (unfold is_uint32; lia).
      lia.
    + unfold is_uint32 in Hty. split; [exact Hty|]. lia.
Qed.

(** While the invariant holds, a bounds-checked call never reads outside
    the buffer, so no call of the sequence is undefined. *)
Lemma exec_input_defined (m : memory) (op : input_op) (s : InputMemoryStream.t) :
  input_typed op ->
  0 <= buffer_ s -> 0 <= size_ s ->
  buffer_ s + size_ s <= Z.of_nat (length m) ->
  fst (exec_input m op s) <> Undefined.
Proof.
  intros Hty Hp Hs Hfit.
  destruct (input_request op) as [n|] eqn:Hreq.
  - pose proof (input_request_range op n Hty Hreq) as Hn.
    unfold is_uint32 in Hn.
    rewrite (checked_read_eq m op n s Hty Hreq).
    destruct (size_ s <? n) eqn:Hlt; [discriminate|].
    apply Z.ltb_ge in Hlt.
    destruct (load_in_bounds m (buffer_ s) n) as [bs ->]; [|discriminate].
    apply in_bounds_true. lia.
  - destruct op; simpl in Hreq; try discriminate; unfold exec_input;
      rewrite ?void_eq; discriminate.
Qed.

(** The invariant of a stream over the [L] bytes at [buffer]. *)
Lemma run_input_invariant (m : memory) (buffer L : Z) (ops : list input_op) :
  forall s s' : InputMemoryStream.t,
    is_uint32 (size_ s) ->
    all_calls (fun op _ => input_typed op) m ops s ->
    run_input m ops s = Some s' ->
    is_uint32 (size_ s')
    /\ (all_calls input_contract m ops s ->
        0 <= buffer_ s - buffer ->
        size_ s <= L - (buffer_ s - buffer) ->
        0 <= buffer_ s' - buffer /\ size_ s' <= L - (buffer_ s' - buffer)).
Proof.
  induction ops as [|op ops IH]; intros s s' Hs Hty Hrun.
  - injection Hrun as <-. split; [exact Hs|]. intros _ Hp Hb. split; assumption.
  - destruct Hty as [Hop Hty]. cbn [run_input] in Hrun.
    destruct (exec_input_effect m op s Hop Hs) as [Hs1 Hstep].
    destruct (exec_input m op s) as [[[]|e|] s1] eqn:Hexec; try discriminate;
      cbn [snd] in Hty, Hs1, Hstep;
      destruct (IH s1 s' Hs1 Hty Hrun) as [Hs' Hrest];
      (split; [exact Hs'|]);
      intros [Hc Hcs] Hp Hb; rewrite Hexec in Hcs; cbn [snd] in Hcs;
      destruct (Hstep Hc) as [Hadv Hless]; apply (Hrest Hcs); lia.
Qed.

Lemma run_input_defined (m : memory) (ops : list input_op) :
  forall s : InputMemoryStream.t,
    is_uint32 (size_ s) ->
    all_calls (fun op _ => input_typed op) m ops s ->
    all_calls input_contract m ops s ->
    0 <= buffer_ s -> buffer_ s + size_ s <= Z.of_nat (length m) ->
    exists s', run_input m ops s = Some s'.
Proof.
  induction ops as [|op ops IH]; intros s Hs Hty Hc Hp Hfit.
  - exists s. reflexivity.
  - destruct Hty as [Hop Hty]. destruct Hc as [Hc Hcs]. cbn [run_input].
    cbn beta in Hty.
    destruct (exec_input_effect m op s Hop Hs) as [Hs1 Hstep].
    specialize (Hstep Hc). destruct Hstep as [Hadv Hless].
    assert (Hdef : fst (exec_input m op s) <> Undefined).
    { apply exec_input_defined; [exact Hop|exact Hp| |exact Hfit].
      unfold is_uint32 in Hs. lia. }
    destruct (exec_input m op s) as [[[]|e|] s1] eqn:Hexec;
      cbn [snd fst] in *; try congruence;
      apply IH; try assumption; lia.
Qed.

(** C4, amended: after any sequence of calls the remaining count is never
    negative (it is a 32-bit unsigned number); and it is at most the
    length of the buffer minus the bytes consumed provided every [skip(n)]
    of the sequence is given an [n] no larger than the count remaining and
    every [size(new_size)] a [new_size] no larger than it; such a sequence
    over a buffer that holds the [L] bytes runs to its end. *)
Theorem remaining_within_buffer (m : memory) (buffer L : Z)
  (ops : list input_op)
  (HL : is_uint32 L)
  (Hty : all_calls (fun op _ => input_typed op) m ops
           (InputMemoryStream.make buffer L)) :
  (forall s, run_input m ops (InputMemoryStream.make buffer L) = Some s ->
     0 <= size_ s < UINT32_MOD
     /\ (all_calls input_contract m ops (InputMemoryStream.make buffer L) ->
         0 <= buffer_ s - buffer /\ size_ s <= L - (buffer_ s - buffer)))
  /\ (all_calls input_contract m ops (InputMemoryStream.make buffer L) ->
      in_bounds m buffer L = true ->
      exists s, run_input m ops (InputMemoryStream.make buffer L) = Some s).
Proof.
  split.
  - intros s Hrun.
    destruct (run_input_invariant m buffer L ops
                (InputMemoryStream.make buffer L) s HL Hty Hrun) as [Hs Hinv].
    split; [exact Hs|]. intros Hc. apply Hinv; [exact Hc| |]; simpl; lia.
  - intros Hc Hb. apply in_bounds_true in Hb.
    apply run_input_defined; try assumption; simpl; lia.
Qed.

Lemma remaining_within_buffer_witness :
  exists s,
    run_input scenario_buffer
      [in_read Z (uint32_t LittleEndian); in_skip 1; in_set_size 0;
       in_read_buffer 1]
      (InputMemoryStream.make 0 6) = Some s
    /\ 0 <= size_ s < UINT32_MOD
    /\ size_ s <= 6 - (buffer_ s - 0).
Proof.
  assert (H6 : is_uint32 6) by (unfold is_uint32; rewrite UINT32_MOD_eq; lia).
  assert (H1 : is_uint32 1) by (unfold is_uint32; rewrite UINT32_MOD_eq; lia).
  assert (H0 : is_uint32 0) by (unfold is_uint32; rewrite UINT32_MOD_eq; lia).
  assert (Hty : all_calls (fun op _ => input_typed op) scenario_buffer
                  [in_read Z (uint32_t LittleEndian); in_skip 1; in_set_size 0;
                   in_read_buffer 1]
                  (InputMemoryStream.make 0 6)).
  { exact (conj (uint32_t_ok LittleEndian) (conj H1 (conj H0 (conj H1 I)))). }
  assert (Hc : all_calls input_contract scenario_buffer
                 [in_read Z (uint32_t LittleEndian); in_skip 1; in_set_size 0;
                  in_read_buffer 1]
                 (InputMemoryStream.make 0 6)).
  { repeat split; vm_compute; discriminate. }
  destruct (remaining_within_buffer scenario_buffer 0 6 _ H6 Hty)
    as [Hbound Hruns].
  destruct (Hruns Hc eq_refl) as [s Hrun].
  exists s. split; [exact Hrun|].
  destruct (Hbound s Hrun) as [Hs Hinv].
  split; [exact Hs|]. apply (Hinv Hc).
Defined.

(** ** A buffer of length zero *)

(** The unchecked [skip] on a stream over a buffer of length zero: it
    returns and wraps the count, on the read side and on the write side
    alike. *)
Lemma skip_on_empty_buffer_returns :
  InputMemoryStream.skip 1 (InputMemoryStream.make 0 0)
  = (Ok tt, {| buffer_ := 1; size_ := 4294967295 |})
  /\ OutputMemoryStream.skip 1
       {| OutputMemoryStream.mem := [];
          OutputMemoryStream.stream := OutputMemoryStream.make 0 0 |}
     = (Ok tt,
        {| OutputMemoryStream.mem := [];
           OutputMemoryStream.stream :=
             {| OutputMemoryStream.buffer_ := 1;
                OutputMemoryStream.size_ := 4294967295 |} |}).
Proof. split; reflexivity. Qed.

Lemma store_nil (m : memory) (p : Z) :
  in_bounds m p 0 = true -> store m p [] = Some m.
Proof.
  intros Hb. unfold store. cbn [length Z.of_nat]. rewrite Hb.
  cbn [app length]. rewrite Nat.add_0_r, firstn_skipn. reflexivity.
Qed.

Lemma consumed_nothing (s : InputMemoryStream.t) :
  is_uint32 (size_ s) -> consumed s 0 = s.
Proof.
  intros Hs. destruct s as [p r]. unfold consumed. cbn [size_ buffer_] in *.
  rewrite Z.add_0_r, Z.sub_0_r, (to_uint32_small _ Hs). reflexivity.
Qed.

Lemma produced_nothing (s : OutputMemoryStream.state) :
  is_uint32 (capacity s) -> produced s (heap s) 0 = s.
Proof.
  intros Hs. destruct s as [m [p r]]. unfold produced.
  cbn [OutputMemoryStream.size_ OutputMemoryStream.buffer_
       OutputMemoryStream.stream OutputMemoryStream.mem] in *.
  rewrite Z.add_0_r, Z.sub_0_r, (to_uint32_small _ Hs). reflexivity.
Qed.

(** On a stream constructed over a buffer of length zero the conversion
    to [bool] yields false; every bounds-checked read (scalar, address,
    bulk) of a non-zero number of bytes throws [malformed_packet] and
    every bounds-checked write (scalar, range, pointer and length,
    address, fill) of a non-zero number of bytes, the number being one a
    [uint32_t] holds, throws [serialization_error]; every such read or
    write of zero bytes returns, as does [skip(0)]; the unchecked [skip(n)]
    of a non-zero [n] returns as well and wraps the count. *)
Lemma zero_length_buffer (m : memory) (buffer : Z)
  (Hp : in_bounds m buffer 0 = true) :
  let inp := InputMemoryStream.make buffer 0 in
  let out := {| OutputMemoryStream.mem := m;
                OutputMemoryStream.stream := OutputMemoryStream.make buffer 0 |} in
  InputMemoryStream.operator_bool inp = (Ok false, inp)
  /\ (forall op n, input_typed op -> input_request op = Some n -> n <> 0 ->
        exec_input m op inp = (Throw malformed_packet, inp))
  /\ (forall op n, output_typed op -> output_request op = Some n -> n <> 0 ->
        exec_output op out = (Throw serialization_error, out))
  /\ (forall op, input_typed op -> input_request op = Some 0 ->
        exec_input m op inp = (Ok tt, inp))
  /\ (forall op, output_typed op -> output_request op = Some 0 ->
        exec_output op out = (Ok tt, out))
  /\ exec_input m (in_skip 0) inp = (Ok tt, inp)
  /\ exec_output (out_skip 0) out = (Ok tt, out)
  /\ (forall n, is_uint32 n -> n <> 0 ->
        exec_input m (in_skip n) inp
        = (Ok tt, {| buffer_ := buffer + n; size_ := UINT32_MOD - n |})).
Proof.
  intros inp out. pose proof UINT32_MOD_eq as HM.
  assert (H0 : is_uint32 0) by (unfold is_uint32; lia).
  split; [reflexivity|].
  split.
  { intros op n Hty Hreq Hn. apply (read_that_does_not_fit m op n); try assumption.
    pose proof (input_request_range op n Hty Hreq) as Hr.
    unfold is_uint32 in Hr. simpl. lia. }
  split.
  { intros op n Hty Hreq Hn. apply (write_that_does_not_fit op n); try assumption.
    destruct (checked_write_cases op n out Hty Hreq) as (bs & Hlen & _).
    simpl. lia. }
  split.
  { intros op Hty Hreq. rewrite (checked_read_eq m op 0 inp Hty Hreq).
    cbn [inp InputMemoryStream.make size_ buffer_].
    change (0 <? 0) with false. cbv iota.
    unfold load. rewrite Hp. f_equal. apply (consumed_nothing inp). exact H0. }
  split.
  { intros op Hty Hreq.
    destruct (checked_write_cases op 0 out Hty Hreq) as (bs & Hlen & ->).
    destruct bs as [|b bs]; [|simpl in Hlen; lia].
    cbn [out OutputMemoryStream.make OutputMemoryStream.size_
         OutputMemoryStream.buffer_ OutputMemoryStream.stream
         OutputMemoryStream.mem].
    change (0 <? 0) with false. cbv iota.
    rewrite (store_nil m buffer Hp). f_equal. apply (produced_nothing out).
    exact H0. }
  split.
  { cbn [exec_input]. rewrite skip_eq. f_equal.
    apply (consumed_nothing inp). exact H0. }
  split.
  { cbn [exec_output]. rewrite output_skip_eq. f_equal.
    apply (produced_nothing out). exact H0. }
  intros n Hn Hnz. cbn [exec_input]. rewrite skip_eq. unfold consumed.
  cbn [inp InputMemoryStream.make size_ buffer_]. unfold is_uint32 in Hn.
  rewrite (to_uint32_wrap (0 - n)) by lia.
  do 2 f_equal. lia.
Qed.

Lemma zero_length_buffer_witness :
  exec_output (out_write_range [Init.Byte.x2a])
    {| OutputMemoryStream.mem := [];
       OutputMemoryStream.stream := OutputMemoryStream.make 0 0 |}
  = (Throw serialization_error,
     {| OutputMemoryStream.mem := [];
        OutputMemoryStream.stream := OutputMemoryStream.make 0 0 |}).
Proof.
  assert (H1 : output_typed (out_write_range [Init.Byte.x2a]))
    by (unfold output_typed, is_uint32; rewrite UINT32_MOD_eq; simpl; lia).
  assert (Hnz : 1 <> 0) by lia.
  exact (proj1 (proj2 (proj2 (zero_length_buffer [] 0 eq_refl)))
           (out_write_range [Init.Byte.x2a]) 1 H1 eq_refl Hnz).
Defined.

(** ** A range longer than a 32-bit count *)

(** The length of a range is reduced modulo 2^32 before it is compared
    with the capacity: a range of a multiple of 2^32 bytes passes the
    check of any stream. *)
Lemma write_range_length_wraps (range : list byte)
  (s : OutputMemoryStream.state) :
  is_uint32 (capacity s) ->
  Z.of_nat (length range) = UINT32_MOD ->
  capacity s < Z.of_nat (length range)
  /\ fst (OutputMemoryStream.write_range range s) <> Throw serialization_error.
Proof.
  intros Hs Hlen. unfold is_uint32 in Hs. split; [lia|].
  rewrite write_range_eq. cbv zeta. rewrite Hlen.
  change (to_uint32 UINT32_MOD) with 0.
  replace (capacity s <? 0) with false by (symmetry; apply Z.ltb_ge; lia).
  destruct (store (heap s) (position s) range); discriminate.
Qed.

(** C7, at the input where the code departs from it: on an output stream
    constructed over a buffer of length zero, the range write of 2^32
    bytes asks for a non-zero number of bytes, yet [serialization_error]
    is not thrown; the length narrows to zero, the check passes, and the
    copy of the whole range runs past the end of the empty buffer. *)
Theorem empty_buffer_accepts_4GiB_range :
  let range := repeat Init.Byte.x00 (Z.to_nat UINT32_MOD) in
  let s := {| OutputMemoryStream.mem := [];
              OutputMemoryStream.stream := OutputMemoryStream.make 0 0 |} in
  Z.of_nat (length range) = 4294967296
  /\ Z.of_nat (length range) <> 0
  /\ capacity s = 0
  /\ OutputMemoryStream.write_range range s = (Undefined, s).
Proof.
  intros range s.
  assert (Hlen : Z.of_nat (length range) = 4294967296).
  { unfold range. rewrite repeat_length, Z2Nat.id; [reflexivity|].
    rewrite UINT32_MOD_eq. lia. }
  clearbody range.
  split; [exact Hlen|]. split; [lia|]. split; [reflexivity|].
  rewrite write_range_eq. cbv zeta. rewrite Hlen.
  change (to_uint32 4294967296) with 0.
  unfold s at 1. cbn [OutputMemoryStream.make OutputMemoryStream.size_
                      OutputMemoryStream.stream].
  change (0 <? 0) with false. cbv iota.
  unfold store, in_bounds. rewrite Hlen. reflexivity.
Qed.

(** C2, at the input where the code departs from it: a range of 2^32
    bytes written to a stream of capacity 3 over a buffer of 3 bytes asks
    for more than the capacity, yet [serialization_error] is not thrown;
    the copy of the whole range runs past the end of the buffer. *)
Theorem write_range_of_4GiB_is_not_refused :
  let range := repeat Init.Byte.x00 (Z.to_nat UINT32_MOD) in
  let s := {| OutputMemoryStream.mem := repeat Init.Byte.x00 3;
              OutputMemoryStream.stream := OutputMemoryStream.make 0 3 |} in
  Z.of_nat (length range) = 4294967296
  /\ capacity s = 3
  /\ OutputMemoryStream.write_range range s = (Undefined, s).
Proof.
  intros range s.
  assert (Hlen : Z.of_nat (length range) = 4294967296).
  { unfold range. rewrite repeat_length, Z2Nat.id; [reflexivity|].
    rewrite UINT32_MOD_eq. lia. }
  clearbody range.
  split; [exact Hlen|]. split; [reflexivity|].
  rewrite write_range_eq. cbv zeta. rewrite Hlen.
  change (to_uint32 4294967296) with 0.
  unfold s at 1. cbn [OutputMemoryStream.make OutputMemoryStream.size_
                      OutputMemoryStream.stream].
  change (3 <? 0) with false. cbv iota.
  unfold store, in_bounds. rewrite Hlen. reflexivity.
Qed.

(** * Further properties of the streams *)

(** ** The other bounds-checked reads *)

(** What the common shape of a bounds-checked read of [n] bytes gives:
    [decode] turns the bytes found into the value returned. *)
Lemma checked_read_shape {A} (m : memory) (n : Z) (decode : list byte -> A)
  (s : InputMemoryStream.t) (r : outcome A * InputMemoryStream.t) :
  is_uint32 (size_ s) -> 0 <= n ->
  r = (if size_ s <? n then (Throw malformed_packet, s)
       else match load m (buffer_ s) n with
            | Some bs => (Ok (decode bs), consumed s n)
            | None => (Undefined, s)
            end) ->
  (r = (Throw malformed_packet, s) <-> size_ s < n)
  /\ (forall e, fst r = Throw e -> e = malformed_packet /\ size_ s < n)
  /\ (forall a s', r = (Ok a, s') ->
        n <= size_ s
        /\ (exists bs, load m (buffer_ s) n = Some bs
                       /\ Z.of_nat (length bs) = n /\ a = decode bs)
        /\ buffer_ s' = buffer_ s + n
        /\ size_ s' = size_ s - n)
  /\ (n <= size_ s -> in_bounds m (buffer_ s) n = true ->
        exists a s', r = (Ok a, s')).
Proof.
  intros Hs Hn ->. unfold is_uint32 in Hs.
  destruct (size_ s <? n) eqn:Hlt.
  - apply Z.ltb_lt in Hlt.
    split. { split; [intros _; exact Hlt | reflexivity]. }
    split. { intros e He. simpl in He. inversion He. split; [reflexivity | exact Hlt]. }
    split. { intros a s' H. discriminate. }
    intros Hge. lia.
  - apply Z.ltb_ge in Hlt.
    destruct (load m (buffer_ s) n) as [bs|] eqn:Hload.
    + pose proof (load_length _ _ _ _ Hload) as Hlen.
      split. { split; [discriminate | intros; lia]. }
      split. { intros e He. discriminate. }
      split.
      { intros a s' H. inversion H; subst a s'; clear H.
        split; [exact Hlt|]. split; [exists bs; auto|].
        unfold consumed. cbn [size_ buffer_]. split; [reflexivity|].
        apply to_uint32_small. unfold is_uint32. lia. }
      intros _ _. eauto.
    + split. { split; [discriminate | intros; lia]. }
      split. { intros e He. discriminate. }
      split. { intros a s' H. discriminate. }
      intros _ Hb. apply load_in_bounds in Hb. destruct Hb as [bs Hb].
      congruence.
Qed.

(** X1: [read(void*, n)] throws [malformed_packet] exactly when fewer than
    [n] bytes remain, leaving the stream as it was, and throws nothing
    else; when it returns, the output buffer holds exactly the [n] bytes
    found at the position, the position has advanced by [n] and the
    remaining count has dropped by [n]; it returns whenever [n] bytes
    remain and lie inside the buffer. *)
Theorem read_buffer_checks_then_copies (m : memory) (n : Z)
  (s : InputMemoryStream.t) (Hs : is_uint32 (size_ s)) (Hn : is_uint32 n) :
  (InputMemoryStream.read_buffer m n s = (Throw malformed_packet, s)
   <-> size_ s < n)
  /\ (forall e, fst (InputMemoryStream.read_buffer m n s) = Throw e ->
        e = malformed_packet /\ size_ s < n)
  /\ (forall bs s', InputMemoryStream.read_buffer m n s = (Ok bs, s') ->
        n <= size_ s
        /\ load m (buffer_ s) n = Some bs
        /\ Z.of_nat (length bs) = n
        /\ buffer_ s' = buffer_ s + n
        /\ size_ s' = size_ s - n)
  /\ (n <= size_ s -> in_bounds m (buffer_ s) n = true ->
        exists bs s', InputMemoryStream.read_buffer m n s = (Ok bs, s')).
Proof.
  destruct (checked_read_shape m n (fun bs => bs) s
              (InputMemoryStream.read_buffer m n s) Hs (proj1 Hn)
              (read_buffer_eq m n s))
    as (Hthrow & Honly & Hok & Hruns).
  split; [exact Hthrow|]. split; [exact Honly|]. split; [|exact Hruns].
  intros bs s' Hread.
  destruct (Hok bs s' Hread) as (Hle & (bs' & Hload & Hlen & ->) & Hp & Hr).
  auto.
Qed.

Lemma read_buffer_checks_then_copies_witness :
  exists bs s',
    InputMemoryStream.read_buffer scenario_buffer 2
      {| buffer_ := 4; size_ := 2 |} = (Ok bs, s').
Proof.
  assert (H2 : is_uint32 2) by (unfold is_uint32; rewrite UINT32_MOD_eq; lia).
  assert (Hle : 2 <= 2) by lia.
  exact (proj2 (proj2 (proj2 (read_buffer_checks_then_copies scenario_buffer 2
                                {| buffer_ := 4; size_ := 2 |} H2 H2)))
           Hle eq_refl).
Defined.

(** X2: [read(IPv4Address&)] throws [malformed_packet] exactly when fewer
    than 4 bytes remain, leaving the stream as it was; when it returns, the
    address is the one constructed from the [uint32_t] whose object
    representation is the 4 bytes at the position, and the stream has
    advanced by 4; it returns whenever 4 bytes remain inside the buffer. *)
Theorem read_IPv4Address_checks_then_copies (m : memory) (e : endian)
  (s : InputMemoryStream.t) (Hs : is_uint32 (size_ s)) :
  (InputMemoryStream.read_IPv4Address m e s = (Throw malformed_packet, s)
   <-> size_ s < 4)
  /\ (forall address s',
        InputMemoryStream.read_IPv4Address m e s = (Ok address, s') ->
        4 <= size_ s
        /\ load m (buffer_ s) 4
           = Some (uint_repr e 4 (IPv4Address.to_uint32 address))
        /\ IPv4Address.valid address
        /\ buffer_ s' = buffer_ s + 4
        /\ size_ s' = size_ s - 4)
  /\ (4 <= size_ s -> in_bounds m (buffer_ s) 4 = true ->
        exists address s',
          InputMemoryStream.read_IPv4Address m e s = (Ok address, s')).
Proof.
  destruct (checked_read_shape m 4
              (fun bs => IPv4Address.from_uint32 (uint_value e bs)) s
              (InputMemoryStream.read_IPv4Address m e s) Hs ltac:(lia)
              (read_IPv4Address_eq m e s))
    as (Hthrow & _ & Hok & Hruns).
  split; [exact Hthrow|]. split; [|exact Hruns].
  intros address s' Hread.
  destruct (Hok address s' Hread) as (Hle & (bs & Hload & Hlen & ->) & Hp & Hr).
  split; [exact Hle|]. split; [|split; [|split; assumption]].
  - rewrite Hload. f_equal. symmetry.
    apply (object_from_repr (ScalarOk := uint32_t_ok e)). exact Hlen.
  - pose proof (from_repr_valid (ScalarOk := uint32_t_ok e) bs Hlen) as Hv.
    exact Hv.
Qed.

Lemma read_IPv4Address_checks_then_copies_witness :
  InputMemoryStream.read_IPv4Address scenario_buffer BigEndian
    (InputMemoryStream.make 0 6)
  = (Throw malformed_packet, InputMemoryStream.make 0 6)
  <-> 6 < 4.
Proof.
  assert (H6 : is_uint32 (size_ (InputMemoryStream.make 0 6)))
    by (unfold is_uint32; rewrite UINT32_MOD_eq; simpl; lia).
  exact (proj1 (read_IPv4Address_checks_then_copies scenario_buffer BigEndian
                  (InputMemoryStream.make 0 6) H6)).
Defined.

(** X3: [read(IPv6Address&)] throws [malformed_packet] exactly when fewer
    than 16 bytes remain, leaving the stream as it was; when it returns,
    the address holds exactly the 16 bytes at the position and the stream
    has advanced by 16; it returns whenever 16 bytes remain inside the
    buffer. *)
Theorem read_IPv6Address_checks_then_copies (m : memory)
  (s : InputMemoryStream.t) (Hs : is_uint32 (size_ s)) :
  (InputMemoryStream.read_IPv6Address m s = (Throw malformed_packet, s)
   <-> size_ s < 16)
  /\ (forall address s',
        InputMemoryStream.read_IPv6Address m s = (Ok address, s') ->
        16 <= size_ s
        /\ load m (buffer_ s) 16 = Some (IPv6Address.bytes address)
        /\ IPv6Address.valid address
        /\ buffer_ s' = buffer_ s + 16
        /\ size_ s' = size_ s - 16)
  /\ (16 <= size_ s -> in_bounds m (buffer_ s) 16 = true ->
        exists address s',
          InputMemoryStream.read_IPv6Address m s = (Ok address, s')).
Proof.
  destruct (checked_read_shape m 16
              (fun bs => {| IPv6Address.address_ := bs |}) s
              (InputMemoryStream.read_IPv6Address m s) Hs ltac:(lia)
              (read_IPv6Address_eq m s))
    as (Hthrow & _ & Hok & Hruns).
  split; [exact Hthrow|]. split; [|exact Hruns].
  intros address s' Hread.
  destruct (Hok address s' Hread) as (Hle & (bs & Hload & Hlen & ->) & Hp & Hr).
  repeat split; assumption.
Qed.

Lemma read_IPv6Address_checks_then_copies_witness :
  InputMemoryStream.read_IPv6Address scenario_buffer
    (InputMemoryStream.make 0 6)
  = (Throw malformed_packet, InputMemoryStream.make 0 6)
  <-> 6 < 16.
Proof.
  assert (H6 : is_uint32 (size_ (InputMemoryStream.make 0 6)))
    by (unfold is_uint32; rewrite UINT32_MOD_eq; simpl; lia).
  exact (proj1 (read_IPv6Address_checks_then_copies scenario_buffer
                  (InputMemoryStream.make 0 6) H6)).
Defined.

(** X4: [read(HWAddress<n>&)], for an [n] a [uint32_t] holds, throws
    [malformed_packet] exactly when fewer than [n] bytes remain, leaving
    the stream as it was; when it returns, the address holds exactly the
    [n] bytes at the position and the stream has advanced by [n]; it
    returns whenever [n] bytes remain inside the buffer. *)
Theorem read_HWAddress_checks_then_copies (m : memory) (n : nat)
  (s : InputMemoryStream.t) (Hs : is_uint32 (size_ s))
  (Hn : is_uint32 (HWAddress.address_size n)) :
  (InputMemoryStream.read_HWAddress m n s = (Throw malformed_packet, s)
   <-> size_ s < Z.of_nat n)
  /\ (forall address s',
        InputMemoryStream.read_HWAddress m n s = (Ok address, s') ->
        Z.of_nat n <= size_ s
        /\ load m (buffer_ s) (Z.of_nat n) = Some (HWAddress.bytes address)
        /\ HWAddress.valid address
        /\ buffer_ s' = buffer_ s + Z.of_nat n
        /\ size_ s' = size_ s - Z.of_nat n)
  /\ (Z.of_nat n <= size_ s -> in_bounds m (buffer_ s) (Z.of_nat n) = true ->
        exists address s',
          InputMemoryStream.read_HWAddress m n s = (Ok address, s')).
Proof.
  destruct (checked_read_shape m (Z.of_nat n)
              (fun bs => {| HWAddress.buffer_ := bs |}) s
              (InputMemoryStream.read_HWAddress m n s) Hs ltac:(lia)
              (read_HWAddress_eq m n s Hn))
    as (Hthrow & _ & Hok & Hruns).
  split; [exact Hthrow|]. split; [|exact Hruns].
  intros address s' Hread.
  destruct (Hok address s' Hread) as (Hle & (bs & Hload & Hlen & ->) & Hp & Hr).
  repeat split; try assumption.
  unfold HWAddress.valid. simpl. apply Nat2Z.inj. exact Hlen.
Qed.

Lemma read_HWAddress_checks_then_copies_witness :
  exists address s',
    InputMemoryStream.read_HWAddress scenario_buffer 6
      (InputMemoryStream.make 0 6) = (Ok address, s').
Proof.
  assert (H6 : is_uint32 6) by (unfold is_uint32; rewrite UINT32_MOD_eq; lia).
  assert (Hle : Z.of_nat 6 <= 6) by (simpl; lia).
  exact (proj2 (proj2 (read_HWAddress_checks_then_copies scenario_buffer 6
                         (InputMemoryStream.make 0 6) H6 H6))
           Hle eq_refl).
Defined.

(** ** Failure leaves everything as it was *)

(** X5: whatever call of an input stream throws, the exception is
    [malformed_packet], the call is a bounds-checked read that asked for
    more bytes than remain, and position and remaining count are what they
    were before the call; conversely every bounds-checked read that asks
    for more than remains throws so.  [skip], [can_read], [pointer],
    [size] and the conversion to [bool] never throw. *)
Theorem failed_read_leaves_stream (m : memory) (op : input_op)
  (s : InputMemoryStream.t) (Hty : input_typed op) :
  (forall e s', exec_input m op s = (Throw e, s') ->
     e = malformed_packet /\ s' = s
     /\ exists n, input_request op = Some n /\ size_ s < n)
  /\ (forall n, input_request op = Some n -> size_ s < n ->
        exec_input m op s = (Throw malformed_packet, s)).
Proof.
  split.
  - intros e s' Hexec.
    destruct (input_request op) as [n|] eqn:Hreq.
    + rewrite (checked_read_eq m op n s Hty Hreq) in Hexec.
      destruct (size_ s <? n) eqn:Hlt.
      * injection Hexec as <- <-. apply Z.ltb_lt in Hlt. eauto.
      * destruct (load m (buffer_ s) n); discriminate.
    + destruct op; simpl in Hreq; try discriminate; unfold exec_input in Hexec;
        rewrite ?void_eq in Hexec; discriminate.
  - intros n Hreq Hlt. rewrite (checked_read_eq m op n s Hty Hreq).
    apply Z.ltb_lt in Hlt. rewrite Hlt. reflexivity.
Qed.

Lemma failed_read_leaves_stream_witness :
  exec_input scenario_buffer in_read_IPv6Address (InputMemoryStream.make 0 6)
  = (Throw malformed_packet, InputMemoryStream.make 0 6).
Proof.
  assert (Hlt : size_ (InputMemoryStream.make 0 6) < 16) by (simpl; lia).
  exact (proj2 (failed_read_leaves_stream scenario_buffer in_read_IPv6Address
                  (InputMemoryStream.make 0 6) I) 16 eq_refl Hlt).
Defined.

(** ** The bounds-checked writes *)

(** A store changes nothing before the bytes it writes and nothing after
    them. *)
Lemma store_frame (m : memory) (p : Z) (bs : list byte) (m' : memory) :
  store m p bs = Some m' ->
  (forall q, 0 <= q <= p -> firstn (Z.to_nat q) m' = firstn (Z.to_nat q) m)
  /\ (forall q, p + Z.of_nat (length bs) <= q ->
        skipn (Z.to_nat q) m' = skipn (Z.to_nat q) m).
Proof.
  unfold store. destruct (in_bounds m p (Z.of_nat (length bs))) eqn:Hb;
    [|discriminate].
  intros [= <-]. apply in_bounds_true in Hb. split.
  - intros q Hq. rewrite firstn_app, length_firstn.
    replace (Z.to_nat q - Nat.min (Z.to_nat p) (length m))%nat with 0%nat
      by lia.
    rewrite firstn_0, app_nil_r, firstn_firstn.
    f_equal. lia.
  - intros q Hq. rewrite app_assoc, skipn_app.
    rewrite skipn_all2 by (rewrite length_app, length_firstn; lia).
    rewrite length_app, length_firstn, skipn_skipn. cbn [app].
    f_equal. lia.
Qed.

(** The bytes of a region that a store does not overlap are afterwards
    what they were. *)
Lemma load_outside_store (m : memory) (p : Z) (bs : list byte) (m' : memory)
  (q n : Z) :
  store m p bs = Some m' -> 0 <= q -> 0 <= n ->
  q + n <= p \/ p + Z.of_nat (length bs) <= q ->
  load m' q n = load m q n.
Proof.
  intros Hst Hq Hn Hdisj.
  pose proof (store_length _ _ _ _ Hst) as Hlen.
  destruct (store_frame _ _ _ _ Hst) as [Hbefore Hafter].
  unfold load, in_bounds. rewrite Hlen.
  destruct ((0 <=? q) && (0 <=? n) && (q + n <=? Z.of_nat (length m)));
    [|reflexivity].
  f_equal. destruct Hdisj as [Hd | Hd].
  - rewrite !firstn_skipn_comm.
    replace (Z.to_nat q + Z.to_nat n)%nat with (Z.to_nat (q + n)) by lia.
    rewrite (Hbefore (q + n)) by lia. reflexivity.
  - rewrite (Hafter q Hd). reflexivity.
Qed.

(** What the common shape of a bounds-checked write of the [n] bytes [bs]
    gives. *)
Lemma checked_write_shape (n : Z) (bs : list byte)
  (s : OutputMemoryStream.state)
  (r : outcome unit * OutputMemoryStream.state) :
  is_uint32 (capacity s) -> Z.of_nat (length bs) = n ->
  r = (if capacity s <? n then (Throw serialization_error, s)
       else match store (heap s) (position s) bs with
            | Some m' => (Ok tt, produced s m' n)
            | None => (Undefined, s)
            end) ->
  (r = (Throw serialization_error, s) <-> capacity s < n)
  /\ (forall e, fst r = Throw e -> e = serialization_error /\ capacity s < n)
  /\ (forall s', r = (Ok tt, s') ->
        n <= capacity s
        /\ load (heap s') (position s) n = Some bs
        /\ heap s' = firstn (Z.to_nat (position s)) (heap s) ++ bs
                       ++ skipn (Z.to_nat (position s) + length bs) (heap s)
        /\ length (heap s') = length (heap s)
        /\ position s' = position s + n
        /\ capacity s' = capacity s - n)
  /\ (n <= capacity s -> in_bounds (heap s) (position s) n = true ->
        exists s', r = (Ok tt, s')).
Proof.
  intros Hs Hlen ->. unfold is_uint32 in Hs.
  destruct (capacity s <? n) eqn:Hlt.
  - apply Z.ltb_lt in Hlt.
    split. { split; [intros _; exact Hlt | reflexivity]. }
    split. { intros e He. simpl in He. inversion He. split; [reflexivity | exact Hlt]. }
    split. { intros s' H. discriminate. }
    intros Hge. lia.
  - apply Z.ltb_ge in Hlt.
    destruct (store (heap s) (position s) bs) as [m'|] eqn:Hstore.
    + split. { split; [discriminate | intros; lia]. }
      split. { intros e He. discriminate. }
      split.
      { intros s' H. inversion H; subst s'; clear H. unfold produced.
        cbn [OutputMemoryStream.size_ OutputMemoryStream.buffer_
             OutputMemoryStream.stream OutputMemoryStream.mem].
        split; [exact Hlt|].
        split. { rewrite <- Hlen. eapply load_store. exact Hstore. }
        split. { apply store_shape. exact Hstore. }
        split. { eapply store_length. exact Hstore. }
        split; [reflexivity|].
        apply to_uint32_small. unfold is_uint32. lia. }
      intros _ _. eauto.
    + split. { split; [discriminate | intros; lia]. }
      split. { intros e He. discriminate. }
      split. { intros s' H. discriminate. }
      intros _ Hb. rewrite <- Hlen in Hb.
      apply store_in_bounds in Hb. destruct Hb as [m' Hb]. congruence.
Qed.

(** X6: [write(const T&)] throws [serialization_error] exactly when the
    capacity is below [sizeof(T)], leaving buffer and stream as they were,
    and throws nothing else; when it returns, the [sizeof(T)] bytes from
    the old position on are the object representation of the value, every
    other byte of the buffer is as before, the position has advanced and
    the capacity has dropped by [sizeof(T)]; it returns whenever the
    capacity suffices and the bytes lie inside the buffer. *)
Theorem write_checks_then_copies {T} {sc : Scalar T} (Hok : ScalarOk T)
  (value : T) (s : OutputMemoryStream.state) (Hs : is_uint32 (capacity s)) :
  (OutputMemoryStream.write value s = (Throw serialization_error, s)
   <-> capacity s < sizeof)
  /\ (forall e, fst (OutputMemoryStream.write value s) = Throw e ->
        e = serialization_error /\ capacity s < sizeof)
  /\ (forall s', OutputMemoryStream.write value s = (Ok tt, s') ->
        sizeof <= capacity s
        /\ load (heap s') (position s) sizeof = Some (object_repr value)
        /\ heap s' = firstn (Z.to_nat (position s)) (heap s)
                       ++ object_repr value
                       ++ skipn (Z.to_nat (position s)
                                 + length (object_repr value)) (heap s)
        /\ length (heap s') = length (heap s)
        /\ position s' = position s + sizeof
        /\ capacity s' = capacity s - sizeof)
  /\ (sizeof <= capacity s -> in_bounds (heap s) (position s) sizeof = true ->
        exists s', OutputMemoryStream.write value s = (Ok tt, s')).
Proof.
  exact (checked_write_shape sizeof (object_repr value) s
           (OutputMemoryStream.write value s) Hs (object_repr_length value)
           (write_eq Hok value s)).
Qed.

Lemma write_checks_then_copies_witness :
  let s := {| OutputMemoryStream.mem := scenario_buffer;
              OutputMemoryStream.stream := OutputMemoryStream.make 4 2 |} in
  OutputMemoryStream.write (sc := uint32_t LittleEndian) 7 s
  = (Throw serialization_error, s)
  <-> 2 < 4.
Proof.
  assert (H2 : is_uint32 2) by (unfold is_uint32; rewrite UINT32_MOD_eq; lia).
  exact (proj1 (write_checks_then_copies (uint32_t_ok LittleEndian) 7
                  {| OutputMemoryStream.mem := scenario_buffer;
                     OutputMemoryStream.stream := OutputMemoryStream.make 4 2 |}
                  H2)).
Defined.

(** X7: [write(start, end)] over a range whose length a [uint32_t] holds
    throws [serialization_error] exactly when the capacity is below the
    length of the range, leaving buffer and stream as they were; when it
    returns, the bytes from the old position on are the range, every other
    byte of the buffer is as before, and position and capacity have moved
    by the length; [write(ptr, length)] does the same with the [length]
    bytes at [ptr]. *)
Theorem write_range_checks_then_copies (range : list byte)
  (s : OutputMemoryStream.state) (Hs : is_uint32 (capacity s))
  (Hfit : is_uint32 (Z.of_nat (length range))) :
  let n := Z.of_nat (length range) in
  (OutputMemoryStream.write_range range s = (Throw serialization_error, s)
   <-> capacity s < n)
  /\ (forall e, fst (OutputMemoryStream.write_range range s) = Throw e ->
        e = serialization_error /\ capacity s < n)
  /\ (forall s', OutputMemoryStream.write_range range s = (Ok tt, s') ->
        n <= capacity s
        /\ load (heap s') (position s) n = Some range
        /\ heap s' = firstn (Z.to_nat (position s)) (heap s) ++ range
                       ++ skipn (Z.to_nat (position s) + length range) (heap s)
        /\ length (heap s') = length (heap s)
        /\ position s' = position s + n
        /\ capacity s' = capacity s - n)
  /\ (n <= capacity s -> in_bounds (heap s) (position s) n = true ->
        exists s', OutputMemoryStream.write_range range s = (Ok tt, s'))
  /\ (forall src ptr, load src ptr n = Some range ->
        OutputMemoryStream.write_ptr src ptr n s
        = OutputMemoryStream.write_range range s).
Proof.
  intros n.
  assert (Heq : OutputMemoryStream.write_range range s =
                (if capacity s <? n then (Throw serialization_error, s)
                 else match store (heap s) (position s) range with
                      | Some m' => (Ok tt, produced s m' n)
                      | None => (Undefined, s)
                      end)).
  { rewrite write_range_eq. cbv zeta. rewrite (to_uint32_small _ Hfit).
    reflexivity. }
  destruct (checked_write_shape n range s
              (OutputMemoryStream.write_range range s) Hs eq_refl Heq)
    as (H1 & H2 & H3 & H4).
  repeat (split; [assumption|]).
  intros src ptr Hload. unfold OutputMemoryStream.write_ptr, bind at 1.
  rewrite Hload. reflexivity.
Qed.

Lemma write_range_checks_then_copies_witness :
  let s := {| OutputMemoryStream.mem := scenario_buffer;
              OutputMemoryStream.stream := OutputMemoryStream.make 4 2 |} in
  OutputMemoryStream.write_range [Init.Byte.x11; Init.Byte.x22; Init.Byte.x33] s
  = (Throw serialization_error, s)
  <-> 2 < 3.
Proof.
  assert (H2 : is_uint32 2) by (unfold is_uint32; rewrite UINT32_MOD_eq; lia).
  assert (H3 : is_uint32 (Z.of_nat (length [Init.Byte.x11; Init.Byte.x22; Init.Byte.x33])))
    by (unfold is_uint32; rewrite UINT32_MOD_eq; simpl; lia).
  exact (proj1 (write_range_checks_then_copies
                  [Init.Byte.x11; Init.Byte.x22; Init.Byte.x33]
                  {| OutputMemoryStream.mem := scenario_buffer;
                     OutputMemoryStream.stream := OutputMemoryStream.make 4 2 |}
                  H2 H3)).
Defined.

(** X8: whatever call of an output stream throws, the exception is
    [serialization_error], the call is a bounds-checked write that asked
    for more bytes than the capacity, and buffer, position and capacity
    are what they were before the call; conversely every bounds-checked
    write (scalar, range, pointer and length, address, fill) of a byte
    count a [uint32_t] holds that exceeds the capacity throws so.  [skip],
    [pointer] and [size] never throw. *)
Theorem failed_write_leaves_buffer (op : output_op)
  (s : OutputMemoryStream.state) (Hty : output_typed op) :
  (forall e s', exec_output op s = (Throw e, s') ->
     e = serialization_error /\ s' = s
     /\ exists n, output_request op = Some n /\ capacity s < n)
  /\ (forall n, output_request op = Some n -> capacity s < n ->
        exec_output op s = (Throw serialization_error, s)).
Proof.
  split.
  - intros e s' Hexec.
    destruct (output_request op) as [n|] eqn:Hreq.
    + destruct (checked_write_cases op n s Hty Hreq) as (bs & _ & Heq).
      rewrite Heq in Hexec.
      destruct (capacity s <? n) eqn:Hlt.
      * injection Hexec as <- <-. apply Z.ltb_lt in Hlt. eauto.
      * destruct (store (heap s) (position s) bs); discriminate.
    + destruct op; simpl in Hreq; try discriminate; unfold exec_output in Hexec;
        rewrite ?void_eq in Hexec; discriminate.
  - intros n Hreq Hlt.
    destruct (checked_write_cases op n s Hty Hreq) as (bs & _ & ->).
    apply Z.ltb_lt in Hlt. rewrite Hlt. reflexivity.
Qed.

Lemma failed_write_leaves_buffer_witness :
  exec_output (out_fill 9 Init.Byte.x00)
    {| OutputMemoryStream.mem := scenario_buffer;
       OutputMemoryStream.stream := OutputMemoryStream.make 4 2 |}
  = (Throw serialization_error,
     {| OutputMemoryStream.mem := scenario_buffer;
        OutputMemoryStream.stream := OutputMemoryStream.make 4 2 |}).
Proof.
  assert (H9 : output_typed (out_fill 9 Init.Byte.x00))
    by (unfold output_typed, is_uint32; rewrite UINT32_MOD_eq; lia).
  assert (Hlt : 2 < 9) by lia.
  exact (proj2 (failed_write_leaves_buffer (out_fill 9 Init.Byte.x00)
                  {| OutputMemoryStream.mem := scenario_buffer;
                     OutputMemoryStream.stream := OutputMemoryStream.make 4 2 |}
                  H9) 9 eq_refl Hlt).
Defined.

(** ** How the operations relate and compose *)

(** X9: [fill(n, v)] is the range write of [n] copies of [v]: the two
    calls have the same outcome and leave the same buffer and stream, in
    every state. *)
Theorem fill_is_range_write (n : Z) (v : byte)
  (s : OutputMemoryStream.state) (Hn : is_uint32 n) :
  OutputMemoryStream.fill n v s
  = OutputMemoryStream.write_range (repeat v (Z.to_nat n)) s.
Proof.
  rewrite fill_eq, write_range_eq. cbv zeta.
  rewrite repeat_length, Z2Nat.id by (apply Hn).
  rewrite (to_uint32_small _ Hn). reflexivity.
Qed.

Lemma fill_is_range_write_witness :
  OutputMemoryStream.fill 2 Init.Byte.xff
    {| OutputMemoryStream.mem := scenario_buffer;
       OutputMemoryStream.stream := OutputMemoryStream.make 1 5 |}
  = OutputMemoryStream.write_range (repeat Init.Byte.xff (Z.to_nat 2))
      {| OutputMemoryStream.mem := scenario_buffer;
         OutputMemoryStream.stream := OutputMemoryStream.make 1 5 |}.
Proof.
  assert (H2 : is_uint32 2) by (unfold is_uint32; rewrite UINT32_MOD_eq; lia).
  exact (fill_is_range_write 2 Init.Byte.xff
           {| OutputMemoryStream.mem := scenario_buffer;
              OutputMemoryStream.stream := OutputMemoryStream.make 1 5 |} H2).
Defined.

Lemma to_uint32_sub_sub (r a b : Z) :
  to_uint32 (to_uint32 (r - a) - b) = to_uint32 (r - (a + b)).
Proof.
  unfold to_uint32. rewrite Zminus_mod_idemp_l. f_equal. lia.
Qed.

(** X10: two skips in a row are one skip of the sum, on either stream and
    whether or not the count wraps: [skip(a); skip(b)] leaves the stream
    exactly as [skip(a + b)] does, whenever [a + b] is a [uint32_t]. *)
Theorem skip_then_skip (a b : Z)
  (Ha : is_uint32 a) (Hb : is_uint32 b) (Hab : is_uint32 (a + b)) :
  (forall s : InputMemoryStream.t,
     (InputMemoryStream.skip a ;;; InputMemoryStream.skip b) s
     = InputMemoryStream.skip (a + b) s)
  /\ (forall s : OutputMemoryStream.state,
        (OutputMemoryStream.skip a ;;; OutputMemoryStream.skip b) s
        = OutputMemoryStream.skip (a + b) s).
Proof.
  split; intros s.
  - unfold bind. rewrite !skip_eq. unfold consumed. cbn [size_ buffer_].
    rewrite to_uint32_sub_sub, Z.add_assoc. reflexivity.
  - unfold bind. rewrite !output_skip_eq. unfold produced.
    cbn [OutputMemoryStream.size_ OutputMemoryStream.buffer_
         OutputMemoryStream.stream OutputMemoryStream.mem].
    rewrite to_uint32_sub_sub, Z.add_assoc. reflexivity.
Qed.

Lemma skip_then_skip_witness :
  (InputMemoryStream.skip 4 ;;; InputMemoryStream.skip 5)
    (InputMemoryStream.make 0 6)
  = InputMemoryStream.skip (4 + 5) (InputMemoryStream.make 0 6).
Proof.
  assert (H4 : is_uint32 4) by (unfold is_uint32; rewrite UINT32_MOD_eq; lia).
  assert (H5 : is_uint32 5) by (unfold is_uint32; rewrite UINT32_MOD_eq; lia).
  assert (H9 : is_uint32 (4 + 5))
    by (unfold is_uint32; rewrite UINT32_MOD_eq; lia).
  exact (proj1 (skip_then_skip 4 5 H4 H5 H9) (InputMemoryStream.make 0 6)).
Defined.

(** Loading [a + b] bytes is loading [a] bytes and then the next [b]. *)
Lemma load_add (m : memory) (p a b : Z) (bs : list byte) :
  0 <= a -> 0 <= b -> load m p (a + b) = Some bs ->
  exists bs1 bs2, load m p a = Some bs1 /\ load m (p + a) b = Some bs2
                  /\ bs = bs1 ++ bs2.
Proof.
  intros Ha Hb Hload. apply load_Some in Hload. destruct Hload as [Hin ->].
  apply in_bounds_true in Hin.
  destruct (load_in_bounds m p a) as [bs1 H1]; [apply in_bounds_true; lia|].
  destruct (load_in_bounds m (p + a) b) as [bs2 H2];
    [apply in_bounds_true; lia|].
  exists bs1, bs2. split; [exact H1|]. split; [exact H2|].
  apply load_Some in H1. destruct H1 as [_ ->].
  apply load_Some in H2. destruct H2 as [_ ->].
  replace (Z.to_nat (p + a)) with (Z.to_nat a + Z.to_nat p)%nat by lia.
  rewrite <- skipn_skipn.
  set (l := skipn (Z.to_nat p) m).
  assert (Hl : (Z.to_nat a <= length l)%nat)
    by (unfold l; rewrite length_skipn; lia).
  rewrite <- (firstn_skipn (Z.to_nat a) l) at 1.
  replace (Z.to_nat (a + b))
    with (length (firstn (Z.to_nat a) l) + Z.to_nat b)%nat
    by (rewrite length_firstn; lia).
  apply firstn_app_2.
Qed.

(** X11: two bulk reads in a row read what one bulk read of the sum
    reads: when [a + b] bytes remain and lie inside the buffer,
    [read(dst1, a); read(dst2, b)] both return, their bytes put together
    are the bytes [read(dst, a + b)] returns, and the stream is left in
    the same state. *)
Theorem read_then_read (m : memory) (a b : Z) (s : InputMemoryStream.t)
  (Hs : is_uint32 (size_ s)) (Ha : is_uint32 a) (Hb : is_uint32 b)
  (Hfit : a + b <= size_ s)
  (Hin : in_bounds m (buffer_ s) (a + b) = true) :
  exists bs1 bs2 s1 s2,
    InputMemoryStream.read_buffer m a s = (Ok bs1, s1)
    /\ InputMemoryStream.read_buffer m b s1 = (Ok bs2, s2)
    /\ InputMemoryStream.read_buffer m (a + b) s = (Ok (bs1 ++ bs2), s2).
Proof.
  unfold is_uint32 in Hs, Ha, Hb.
  destruct (load_in_bounds _ _ _ Hin) as [bs Hload].
  destruct (load_add m (buffer_ s) a b bs) as (bs1 & bs2 & H1 & H2 & ->);
    [lia|lia|exact Hload|].
  exists bs1, bs2, (consumed s a), (consumed s (a + b)).
  rewrite !read_buffer_eq.
  rewrite (ltb_false_of_le (size_ s) a) by lia.
  rewrite (ltb_false_of_le (size_ s) (a + b)) by lia.
  rewrite H1, Hload. split; [reflexivity|].
  unfold consumed at 1 2 3. cbn [size_ buffer_].
  rewrite (to_uint32_small (size_ s - a)) by (unfold is_uint32; lia).
  rewrite (ltb_false_of_le (size_ s - a) b) by lia.
  rewrite H2. split; [|reflexivity].
  f_equal. unfold consumed. cbn [size_ buffer_].
  rewrite (to_uint32_small (size_ s - a)) by (unfold is_uint32; lia).
  f_equal; [lia | f_equal; lia].
Qed.

Lemma read_then_read_witness :
  exists bs1 bs2 s1 s2,
    InputMemoryStream.read_buffer scenario_buffer 4
      (InputMemoryStream.make 0 6) = (Ok bs1, s1)
    /\ InputMemoryStream.read_buffer scenario_buffer 2 s1 = (Ok bs2, s2)
    /\ InputMemoryStream.read_buffer scenario_buffer (4 + 2)
         (InputMemoryStream.make 0 6) = (Ok (bs1 ++ bs2), s2).
Proof.
  assert (H6 : is_uint32 6) by (unfold is_uint32; rewrite UINT32_MOD_eq; lia).
  assert (H4 : is_uint32 4) by (unfold is_uint32; rewrite UINT32_MOD_eq; lia).
  assert (H2 : is_uint32 2) by (unfold is_uint32; rewrite UINT32_MOD_eq; lia).
  assert (Hfit : 4 + 2 <= 6) by lia.
  exact (read_then_read scenario_buffer 4 2 (InputMemoryStream.make 0 6)
           H6 H4 H2 Hfit eq_refl).
Defined.

(** Storing two runs of bytes one after the other is storing them put
    together. *)
Lemma store_app (m : memory) (p : Z) (bs1 bs2 : list byte) (m2 : memory) :
  store m p (bs1 ++ bs2) = Some m2 ->
  exists m1, store m p bs1 = Some m1
             /\ store m1 (p + Z.of_nat (length bs1)) bs2 = Some m2.
Proof.
  intros Hst. pose proof Hst as Hshape. apply store_shape in Hshape.
  unfold store in Hst.
  destruct (in_bounds m p (Z.of_nat (length (bs1 ++ bs2)))) eqn:Hb;
    [|discriminate].
  clear Hst. apply in_bounds_true in Hb. rewrite length_app in Hb, Hshape.
  destruct (store_in_bounds m p bs1) as [m1 H1]; [apply in_bounds_true; lia|].
  exists m1. split; [exact H1|].
  pose proof (store_length _ _ _ _ H1) as Hlen1.
  apply store_shape in H1.
  unfold store.
  replace (in_bounds m1 (p + Z.of_nat (length bs1)) (Z.of_nat (length bs2)))
    with true by (symmetry; apply in_bounds_true; lia).
  f_equal. rewrite Hshape.
  replace (Z.to_nat (p + Z.of_nat (length bs1)))
    with (Z.to_nat p + length bs1)%nat by lia.
  set (A := firstn (Z.to_nat p) m) in *.
  assert (HA : length A = Z.to_nat p)
    by (unfold A; rewrite length_firstn; lia).
  set (C1 := skipn (Z.to_nat p + length bs1) m) in *.
  assert (HAB : length (A ++ bs1) = (Z.to_nat p + length bs1)%nat)
    by (rewrite length_app; lia).
  assert (Hfirst : firstn (Z.to_nat p + length bs1) m1 = A ++ bs1).
  { rewrite H1, app_assoc, <- HAB.
    rewrite <- (Nat.add_0_r (length (A ++ bs1))).
    rewrite firstn_app_2, firstn_0. apply app_nil_r. }
  assert (Hskip : skipn (Z.to_nat p + length bs1 + length bs2) m1
                  = skipn (Z.to_nat p + (length bs1 + length bs2)) m).
  { rewrite H1, app_assoc.
    replace (Z.to_nat p + length bs1 + length bs2)%nat
      with (length bs2 + length (A ++ bs1))%nat by lia.
    rewrite <- skipn_skipn, skipn_app, skipn_all, Nat.sub_diag.
    cbn [app skipn]. unfold C1. rewrite skipn_skipn. f_equal. lia. }
  rewrite Hfirst, Hskip, <- !app_assoc. reflexivity.
Qed.

(** X12: two range writes in a row write what one range write of the two
    ranges put together writes: when the capacity holds both ranges and
    the bytes lie inside the buffer, [write(r1); write(r2)] both return
    and leave buffer and stream exactly as [write(r1 ++ r2)] does. *)
Theorem write_then_write (bs1 bs2 : list byte)
  (s : OutputMemoryStream.state) (Hs : is_uint32 (capacity s))
  (Hfit : Z.of_nat (length bs1) + Z.of_nat (length bs2) <= capacity s)
  (Hin : in_bounds (heap s) (position s)
           (Z.of_nat (length bs1) + Z.of_nat (length bs2)) = true) :
  exists s1 s2,
    OutputMemoryStream.write_range bs1 s = (Ok tt, s1)
    /\ OutputMemoryStream.write_range bs2 s1 = (Ok tt, s2)
    /\ OutputMemoryStream.write_range (bs1 ++ bs2) s = (Ok tt, s2).
Proof.
  unfold is_uint32 in Hs.
  set (n1 := Z.of_nat (length bs1)) in *.
  set (n2 := Z.of_nat (length bs2)) in *.
  assert (Hn1 : is_uint32 n1) by (unfold is_uint32, n1; lia).
  assert (Hn2 : is_uint32 n2) by (unfold is_uint32, n2; lia).
  assert (Hlen : Z.of_nat (length (bs1 ++ bs2)) = n1 + n2)
    by (rewrite length_app; unfold n1, n2; lia).
  assert (Hn12 : is_uint32 (n1 + n2)) by (unfold is_uint32; lia).
  destruct (store_in_bounds (heap s) (position s) (bs1 ++ bs2)) as [m2 H12];
    [rewrite Hlen; exact Hin|].
  destruct (store_app _ _ _ _ _ H12) as (m1 & H1 & H2). fold n1 in H2.
  exists (produced s m1 n1), (produced s m2 (n1 + n2)).
  rewrite !write_range_eq. cbv zeta. rewrite Hlen. fold n1 n2.
  rewrite (to_uint32_small _ Hn1), (to_uint32_small _ Hn2),
    (to_uint32_small _ Hn12).
  rewrite (ltb_false_of_le (capacity s) n1) by lia.
  rewrite (ltb_false_of_le (capacity s) (n1 + n2)) by lia.
  rewrite H1, H12. split; [reflexivity|]. split; [|reflexivity].
  assert (Hc1 : capacity (produced s m1 n1) = capacity s - n1).
  { unfold produced.
    cbn [OutputMemoryStream.size_ OutputMemoryStream.stream].
    apply to_uint32_small. unfold is_uint32. lia. }
  assert (Hp1 : position (produced s m1 n1) = position s + n1)
    by reflexivity.
  assert (Hh1 : heap (produced s m1 n1) = m1) by reflexivity.
  rewrite Hc1, Hp1, Hh1.
  rewrite (ltb_false_of_le (capacity s - n1) n2) by lia.
  rewrite H2. f_equal. unfold produced at 1. rewrite Hc1, Hp1.
  unfold produced.
  cbn [OutputMemoryStream.size_ OutputMemoryStream.buffer_
       OutputMemoryStream.stream OutputMemoryStream.mem].
  do 2 f_equal; [lia | f_equal; lia].
Qed.

Lemma write_then_write_witness :
  let s := {| OutputMemoryStream.mem := scenario_buffer;
              OutputMemoryStream.stream := OutputMemoryStream.make 1 5 |} in
  exists s1 s2,
    OutputMemoryStream.write_range [Init.Byte.x11; Init.Byte.x22] s = (Ok tt, s1)
    /\ OutputMemoryStream.write_range [Init.Byte.x33] s1 = (Ok tt, s2)
    /\ OutputMemoryStream.write_range
         ([Init.Byte.x11; Init.Byte.x22] ++ [Init.Byte.x33]) s = (Ok tt, s2).
Proof.
  assert (H5 : is_uint32 5) by (unfold is_uint32; rewrite UINT32_MOD_eq; lia).
  assert (Hfit : Z.of_nat (length [Init.Byte.x11; Init.Byte.x22])
                 + Z.of_nat (length [Init.Byte.x33]) <= 5) by (simpl; lia).
  exact (write_then_write [Init.Byte.x11; Init.Byte.x22] [Init.Byte.x33]
           {| OutputMemoryStream.mem := scenario_buffer;
              OutputMemoryStream.stream := OutputMemoryStream.make 1 5 |}
           H5 Hfit eq_refl).
Defined.

(** ** An output stream stays inside its buffer *)

(** The invariant of an output stream over the [L] bytes at [buffer] of
    the allocation [m]. *)
Lemma exec_output_invariant (m : memory) (buffer L : Z) (op : output_op)
  (s : OutputMemoryStream.state) :
  0 <= buffer -> buffer + L <= Z.of_nat (length m) ->
  output_typed op -> output_contract op s ->
  is_uint32 (capacity s) ->
  buffer <= position s -> position s + capacity s <= buffer + L ->
  length (heap s) = length m ->
  firstn (Z.to_nat buffer) (heap s) = firstn (Z.to_nat buffer) m ->
  skipn (Z.to_nat (buffer + L)) (heap s) = skipn (Z.to_nat (buffer + L)) m ->
  let s' := snd (exec_output op s) in
  fst (exec_output op s) <> Undefined
  /\ is_uint32 (capacity s')
  /\ position s <= position s'
  /\ position s' + capacity s' <= position s + capacity s
  /\ length (heap s') = length m
  /\ firstn (Z.to_nat buffer) (heap s') = firstn (Z.to_nat buffer) m
  /\ skipn (Z.to_nat (buffer + L)) (heap s')
     = skipn (Z.to_nat (buffer + L)) m.
Proof.
  intros Hb HL Hty Hc Hs Hp Hcap Hlen Hpre Hpost. unfold is_uint32 in Hs.
  destruct (output_request op) as [n|] eqn:Hreq.
  - destruct (checked_write_cases op n s Hty Hreq) as (bs & Hbs & ->).
    destruct (capacity s <? n) eqn:Hlt.
    { cbn [fst snd]. repeat split; try assumption; try discriminate; lia. }
    apply Z.ltb_ge in Hlt.
    destruct (store_in_bounds (heap s) (position s) bs) as [m' Hst].
    { apply in_bounds_true. lia. }
    rewrite Hst. cbn [fst snd]. unfold produced.
    cbn [OutputMemoryStream.size_ OutputMemoryStream.buffer_
         OutputMemoryStream.stream OutputMemoryStream.mem].
    rewrite (to_uint32_small (capacity s - n)) by (unfold is_uint32; lia).
    destruct (store_frame _ _ _ _ Hst) as [Hbefore Hafter].
    split; [discriminate|]. split; [unfold is_uint32; lia|].
    split; [lia|]. split; [lia|].
    split; [rewrite (store_length _ _ _ _ Hst); exact Hlen|].
    split.
    + rewrite (Hbefore buffer) by lia. exact Hpre.
    + rewrite (Hafter (buffer + L)) by lia. exact Hpost.
  - destruct op; simpl in Hreq; try discriminate; unfold exec_output;
      rewrite ?void_eq, ?output_skip_eq;
      cbn [OutputMemoryStream.pointer OutputMemoryStream.size gets fst snd].
    + simpl in Hc, Hty. unfold is_uint32 in Hty. unfold produced.
      cbn [OutputMemoryStream.size_ OutputMemoryStream.buffer_
           OutputMemoryStream.stream OutputMemoryStream.mem].
      rewrite (to_uint32_small (capacity s - size)) by (unfold is_uint32; lia).
      repeat split; try assumption; try discriminate; try lia.
    + repeat split; try assumption; try discriminate; lia.
    + repeat split; try assumption; try discriminate; lia.
Qed.

(** X13: an output stream constructed over [L] bytes that lie inside the
    allocation never leaves them.  Along any sequence of well-typed calls
    in which [skip] is given no more than the capacity, no call is
    undefined, the capacity stays at most [L] minus the bytes produced,
    the position stays inside the buffer, and every byte of the
    allocation before the buffer and after it is what it was. *)
Theorem output_stays_inside_buffer (m : memory) (buffer L : Z)
  (ops : list output_op)
  (HL : is_uint32 L) (Hin : in_bounds m buffer L = true) :
  let s0 := {| OutputMemoryStream.mem := m;
               OutputMemoryStream.stream := OutputMemoryStream.make buffer L |} in
  all_output_calls (fun op _ => output_typed op) ops s0 ->
  all_output_calls output_contract ops s0 ->
  exists s, run_output ops s0 = Some s
            /\ 0 <= position s - buffer
            /\ 0 <= capacity s <= L - (position s - buffer)
            /\ length (heap s) = length m
            /\ firstn (Z.to_nat buffer) (heap s) = firstn (Z.to_nat buffer) m
            /\ skipn (Z.to_nat (buffer + L)) (heap s)
               = skipn (Z.to_nat (buffer + L)) m.
Proof.
  intros s0. apply in_bounds_true in Hin.
  assert (Hgen : forall s,
    is_uint32 (capacity s) ->
    buffer <= position s -> position s + capacity s <= buffer + L ->
    length (heap s) = length m ->
    firstn (Z.to_nat buffer) (heap s) = firstn (Z.to_nat buffer) m ->
    skipn (Z.to_nat (buffer + L)) (heap s) = skipn (Z.to_nat (buffer + L)) m ->
    all_output_calls (fun op _ => output_typed op) ops s ->
    all_output_calls output_contract ops s ->
    exists s', run_output ops s = Some s'
      /\ is_uint32 (capacity s')
      /\ buffer <= position s' /\ position s' + capacity s' <= buffer + L
      /\ length (heap s') = length m
      /\ firstn (Z.to_nat buffer) (heap s') = firstn (Z.to_nat buffer) m
      /\ skipn (Z.to_nat (buffer + L)) (heap s')
         = skipn (Z.to_nat (buffer + L)) m).
  { induction ops as [|op ops IH]; intros s Hs Hp Hcap Hlen Hpre Hpost Hty Hc.
    - exists s.
      exact (conj eq_refl (conj Hs (conj Hp (conj Hcap
               (conj Hlen (conj Hpre Hpost)))))).
    - destruct Hty as [Hop Hty]. destruct Hc as [Hcop Hc]. cbn beta in Hty.
      destruct (exec_output_invariant m buffer L op s) as
        (Hdef & Hs1 & Hp1 & Hcap1 & Hlen1 & Hpre1 & Hpost1);
        try assumption; try lia.
      cbn [run_output].
      destruct (exec_output op s) as [[[]|e|] s1] eqn:Hexec;
        cbn [fst snd] in *; try congruence;
        apply IH; try assumption; lia. }
  intros Hty Hc.
  destruct (Hgen s0 HL ltac:(simpl; lia) ltac:(simpl; lia) eq_refl eq_refl
              eq_refl Hty Hc)
    as (s & Hrun & Hs & Hp & Hcap & Hlen & Hpre & Hpost).
  exists s. unfold is_uint32 in Hs.
  split; [exact Hrun|]. repeat split; try assumption; lia.
Qed.

Lemma output_stays_inside_buffer_witness :
  let ops := [out_write Z (uint16_t LittleEndian) 0xBEEF; out_skip 1;
              out_fill 5 Init.Byte.xff; out_write_range [Init.Byte.x11]] in
  let s0 := {| OutputMemoryStream.mem := scenario_buffer;
               OutputMemoryStream.stream := OutputMemoryStream.make 1 4 |} in
  exists s, run_output ops s0 = Some s
            /\ 0 <= position s - 1
            /\ 0 <= capacity s <= 4 - (position s - 1)
            /\ length (heap s) = length scenario_buffer
            /\ firstn (Z.to_nat 1) (heap s) = firstn (Z.to_nat 1) scenario_buffer
            /\ skipn (Z.to_nat (1 + 4)) (heap s)
               = skipn (Z.to_nat (1 + 4)) scenario_buffer.
Proof.
  intros ops s0.
  assert (H4 : is_uint32 4) by (unfold is_uint32; rewrite UINT32_MOD_eq; lia).
  assert (H1 : is_uint32 1) by (unfold is_uint32; rewrite UINT32_MOD_eq; lia).
  assert (H5 : is_uint32 5) by (unfold is_uint32; rewrite UINT32_MOD_eq; lia).
  assert (Hty : all_output_calls (fun op _ => output_typed op) ops s0).
  { exact (conj (uint16_t_ok LittleEndian) (conj H1 (conj H5 (conj H1 I)))). }
  assert (Hc : all_output_calls output_contract ops s0).
  { repeat split; vm_compute; discriminate. }
  exact (output_stays_inside_buffer scenario_buffer 1 4 ops H4 eq_refl Hty Hc).
Defined.

(** The sequence of the witness, run: the scalar lands at offset 1, the
    fill that does not fit changes nothing, and the last byte of the
    buffer's four is written after the skipped one. *)
Example output_sequence_run :
  run_output
    [out_write Z (uint16_t LittleEndian) 0xBEEF; out_skip 1;
     out_fill 5 Init.Byte.xff; out_write_range [Init.Byte.x11]]
    {| OutputMemoryStream.mem := scenario_buffer;
       OutputMemoryStream.stream := OutputMemoryStream.make 1 4 |}
  = Some {| OutputMemoryStream.mem :=
              [Init.Byte.x01; Init.Byte.xef; Init.Byte.xbe; Init.Byte.x00;
               Init.Byte.x11; Init.Byte.xcd];
            OutputMemoryStream.stream := OutputMemoryStream.make 5 0 |}.
Proof. reflexivity. Qed.

(** ** A stream over a vector *)

(** X14: the stream constructed from a vector whose size a [uint32_t]
    holds sees the whole vector: one bulk read of [data.size()] bytes
    returns the content of the vector, after which the stream converts to
    false and a further bulk read of any non-zero size throws
    [malformed_packet]. *)
Theorem vector_stream_reads_vector (data : list byte)
  (Hfit : is_uint32 (Z.of_nat (length data))) :
  let L := Z.of_nat (length data) in
  exists s,
    InputMemoryStream.read_buffer data L (InputMemoryStream.of_vector data)
    = (Ok data, s)
    /\ buffer_ s = L /\ size_ s = 0
    /\ InputMemoryStream.operator_bool s = (Ok false, s)
    /\ forall n, is_uint32 n -> n <> 0 ->
         InputMemoryStream.read_buffer data n s = (Throw malformed_packet, s).
Proof.
  intros L. exists {| buffer_ := L; size_ := 0 |}.
  rewrite (of_vector_as_make data Hfit). fold L.
  rewrite read_buffer_eq. cbn [InputMemoryStream.make size_ buffer_].
  rewrite Z.ltb_irrefl.
  assert (Hload : load data 0 L = Some data).
  { unfold load.
    replace (in_bounds data 0 L) with true
      by (symmetry; apply in_bounds_true; unfold L; lia).
    f_equal. cbn [Z.to_nat skipn]. unfold L. rewrite Nat2Z.id.
    apply firstn_all. }
  rewrite Hload. split.
  { f_equal. unfold consumed. cbn [InputMemoryStream.make size_ buffer_].
    rewrite Z.sub_diag. reflexivity. }
  split; [reflexivity|]. split; [reflexivity|]. split; [reflexivity|].
  intros n Hn Hnz. rewrite read_buffer_eq. cbn [size_].
  unfold is_uint32 in Hn.
  replace (0 <? n) with true by (symmetry; apply Z.ltb_lt; lia).
  reflexivity.
Qed.

Lemma vector_stream_reads_vector_witness :
  exists s,
    InputMemoryStream.read_buffer scenario_buffer 6
      (InputMemoryStream.of_vector scenario_buffer) = (Ok scenario_buffer, s)
    /\ buffer_ s = 6 /\ size_ s = 0
    /\ InputMemoryStream.operator_bool s = (Ok false, s)
    /\ forall n, is_uint32 n -> n <> 0 ->
         InputMemoryStream.read_buffer scenario_buffer n s
         = (Throw malformed_packet, s).
Proof.
  assert (H6 : is_uint32 (Z.of_nat (length scenario_buffer)))
    by (unfold is_uint32; rewrite UINT32_MOD_eq; simpl; lia).
  exact (vector_stream_reads_vector scenario_buffer H6).
Defined.

(** ** The free helpers *)

(** X15: the free helpers copy bytes and nothing else.  A value stored by
    [write_value] is found by [read_value] at the same address with the
    same object representation, and is the same value; the bytes stored
    by [write_data] are the bytes [read_data] finds there, those of the
    source; neither changes the size of the destination or any byte
    outside the region written. *)
Theorem helpers_round_trip (m : memory) (buffer : Z) :
  (forall T (sc : Scalar T) (value : T) (m' : memory),
     ScalarOk T -> write_value m buffer value = Some m' ->
     (exists r, read_value m' buffer = Some r
                /\ object_repr r = object_repr value
                /\ (valid value -> r = value))
     /\ length m' = length m
     /\ firstn (Z.to_nat buffer) m' = firstn (Z.to_nat buffer) m
     /\ skipn (Z.to_nat (buffer + sizeof)) m'
        = skipn (Z.to_nat (buffer + sizeof)) m)
  /\ (forall (src : memory) (ptr size : Z) (m' : memory),
        write_data m buffer src ptr size = Some m' ->
        read_data m' buffer size = read_data src ptr size
        /\ (exists bytes, read_data src ptr size = Some bytes)
        /\ length m' = length m
        /\ firstn (Z.to_nat buffer) m' = firstn (Z.to_nat buffer) m
        /\ skipn (Z.to_nat (buffer + size)) m'
           = skipn (Z.to_nat (buffer + size)) m).
Proof.
  split.
  - intros T sc value m' Hok Hw. unfold write_value in Hw.
    pose proof (object_repr_length value) as Hlen.
    pose proof (load_store _ _ _ _ Hw) as Hload. rewrite Hlen in Hload.
    destruct (store_frame _ _ _ _ Hw) as [Hbefore Hafter].
    assert (Hb : 0 <= buffer).
    { unfold store in Hw.
      destruct (in_bounds m buffer (Z.of_nat (length (object_repr value))))
        eqn:Hin; [|discriminate].
      apply in_bounds_true in Hin. lia. }
    split.
    { exists (from_repr (object_repr value)). unfold read_value.
      rewrite Hload. split; [reflexivity|]. split.
      - apply object_from_repr. exact Hlen.
      - apply from_object_repr. }
    split; [eapply store_length; exact Hw|].
    split; [apply Hbefore; lia|].
    apply Hafter. lia.
  - intros src ptr size m' Hw. unfold write_data in Hw. unfold read_data.
    destruct (load src ptr size) as [bytes|] eqn:Hsrc; [|discriminate].
    pose proof (load_length _ _ _ _ Hsrc) as Hlen.
    pose proof (load_store _ _ _ _ Hw) as Hload. rewrite Hlen in Hload.
    destruct (store_frame _ _ _ _ Hw) as [Hbefore Hafter].
    assert (Hb : 0 <= buffer).
    { unfold store in Hw.
      destruct (in_bounds m buffer (Z.of_nat (length bytes))) eqn:Hin;
        [|discriminate].
      apply in_bounds_true in Hin. lia. }
    split; [exact Hload|]. split; [eauto|].
    split; [eapply store_length; exact Hw|].
    split; [apply Hbefore; lia|].
    apply Hafter. lia.
Qed.

Lemma helpers_round_trip_witness :
  let m' := [Init.Byte.x01; Init.Byte.x00; Init.Byte.xbe; Init.Byte.xef;
             Init.Byte.xab; Init.Byte.xcd] in
  (exists r, read_value (sc := uint16_t BigEndian) m' 2 = Some r
             /\ object_repr (Scalar := uint16_t BigEndian) r
                = object_repr (Scalar := uint16_t BigEndian) 0xBEEF
             /\ (valid (Scalar := uint16_t BigEndian) 0xBEEF -> r = 0xBEEF))
  /\ length m' = length scenario_buffer
  /\ firstn (Z.to_nat 2) m' = firstn (Z.to_nat 2) scenario_buffer
  /\ skipn (Z.to_nat (2 + sizeof (Scalar := uint16_t BigEndian))) m'
     = skipn (Z.to_nat (2 + sizeof (Scalar := uint16_t BigEndian)))
         scenario_buffer.
Proof.
  exact (proj1 (helpers_round_trip scenario_buffer 2)
           Z (uint16_t BigEndian) 0xBEEF
           [Init.Byte.x01; Init.Byte.x00; Init.Byte.xbe; Init.Byte.xef;
            Init.Byte.xab; Init.Byte.xcd]
           (uint16_t_ok BigEndian) eq_refl).
Defined.

(** ** Fields in sequence, and patching back *)

(** X16: two scalars written one after the other are read back one after
    the other.  Over a buffer whose [L] bytes hold both, [write(v1);
    write(v2)] returns, and reading a [T1] then a [T2] from a stream over
    the same bytes returns values with the object representations of [v1]
    and [v2], which are [v1] and [v2]. *)
Theorem two_fields_round_trip {T1 T2} {sc1 : Scalar T1} {sc2 : Scalar T2}
  (Hok1 : ScalarOk T1) (Hok2 : ScalarOk T2) (v1 : T1) (v2 : T2)
  (m : memory) (buffer L : Z)
  (HL : is_uint32 L) (Hin : in_bounds m buffer L = true)
  (Hfit : sizeof (T := T1) + sizeof (T := T2) <= L) :
  let out := {| OutputMemoryStream.mem := m;
                OutputMemoryStream.stream := OutputMemoryStream.make buffer L |} in
  exists out' r1 r2 inp',
    (OutputMemoryStream.write v1 ;;; OutputMemoryStream.write v2) out
    = (Ok tt, out')
    /\ (a <- InputMemoryStream.read (heap out') ;;
        b <- InputMemoryStream.read (heap out') ;;
        ret (a, b)) (InputMemoryStream.make buffer L)
       = (Ok (r1, r2), inp')
    /\ object_repr r1 = object_repr v1
    /\ object_repr r2 = object_repr v2
    /\ (valid v1 -> r1 = v1)
    /\ (valid v2 -> r2 = v2).
Proof.
  intros out. unfold is_uint32 in HL. apply in_bounds_true in Hin.
  pose proof (sizeof_range (T := T1)) as Hw1.
  pose proof (sizeof_range (T := T2)) as Hw2.
  pose proof (object_repr_length v1) as Hlen1.
  pose proof (object_repr_length v2) as Hlen2.
  set (w1 := sizeof (T := T1)) in *. set (w2 := sizeof (T := T2)) in *.
  destruct (store_in_bounds m buffer (object_repr v1)) as [m1 Hst1];
    [apply in_bounds_true; lia|].
  pose proof (store_length _ _ _ _ Hst1) as Hl1.
  destruct (store_in_bounds m1 (buffer + w1) (object_repr v2)) as [m2 Hst2];
    [apply in_bounds_true; lia|].
  assert (Hload1 : load m2 buffer w1 = Some (object_repr v1)).
  { rewrite (load_outside_store m1 (buffer + w1) (object_repr v2) m2 buffer w1
               Hst2) by lia.
    rewrite <- Hlen1. eapply load_store. exact Hst1. }
  assert (Hload2 : load m2 (buffer + w1) w2 = Some (object_repr v2)).
  { rewrite <- Hlen2. eapply load_store. exact Hst2. }
  assert (Hc1 : to_uint32 (L - w1) = L - w1)
    by (apply to_uint32_small; unfold is_uint32; lia).
  set (s1 := produced out m1 w1).
  assert (Hcap1 : capacity s1 = L - w1) by exact Hc1.
  assert (Hpos1 : position s1 = buffer + w1) by reflexivity.
  assert (Hheap1 : heap s1 = m1) by reflexivity.
  set (i0 := InputMemoryStream.make buffer L).
  set (i1 := consumed i0 w1).
  assert (Hsize1 : size_ i1 = L - w1) by exact Hc1.
  assert (Hbuf1 : buffer_ i1 = buffer + w1) by reflexivity.
  exists (produced s1 m2 w2),
         (from_repr (object_repr v1)), (from_repr (object_repr v2)),
         (consumed i1 w2).
  split.
  { unfold bind at 1. rewrite (write_eq Hok1 v1 out). fold w1.
    change (capacity out) with L. change (position out) with buffer.
    change (heap out) with m.
    rewrite (ltb_false_of_le L w1) by lia. rewrite Hst1. fold s1.
    rewrite (write_eq Hok2 v2 s1). fold w2.
    rewrite Hcap1, Hpos1, Hheap1.
    rewrite (ltb_false_of_le (L - w1) w2) by lia.
    rewrite Hst2. reflexivity. }
  split.
  { change (heap (produced s1 m2 w2)) with m2.
    unfold bind at 1. rewrite (read_eq m2 Hok1 i0). fold w1.
    change (size_ i0) with L. change (buffer_ i0) with buffer.
    rewrite (ltb_false_of_le L w1) by lia. rewrite Hload1. fold i1.
    unfold bind at 1. rewrite (read_eq m2 Hok2 i1). fold w2.
    rewrite Hsize1, Hbuf1.
    rewrite (ltb_false_of_le (L - w1) w2) by lia.
    rewrite Hload2. reflexivity. }
  split; [apply object_from_repr; exact Hlen1|].
  split; [apply object_from_repr; exact Hlen2|].
  split; apply from_object_repr.
Qed.

Lemma two_fields_round_trip_witness :
  let out := {| OutputMemoryStream.mem := scenario_buffer;
                OutputMemoryStream.stream := OutputMemoryStream.make 0 6 |} in
  exists out' r1 r2 inp',
    (OutputMemoryStream.write (sc := uint32_t BigEndian) 0xC0A80001 ;;;
     OutputMemoryStream.write (sc := uint16_t BigEndian) 0x1F90) out
    = (Ok tt, out')
    /\ (a <- InputMemoryStream.read (sc := uint32_t BigEndian) (heap out') ;;
        b <- InputMemoryStream.read (sc := uint16_t BigEndian) (heap out') ;;
        ret (a, b)) (InputMemoryStream.make 0 6)
       = (Ok (r1, r2), inp')
    /\ object_repr (Scalar := uint32_t BigEndian) r1
       = object_repr (Scalar := uint32_t BigEndian) 0xC0A80001
    /\ object_repr (Scalar := uint16_t BigEndian) r2
       = object_repr (Scalar := uint16_t BigEndian) 0x1F90
    /\ (valid (Scalar := uint32_t BigEndian) 0xC0A80001 -> r1 = 0xC0A80001)
    /\ (valid (Scalar := uint16_t BigEndian) 0x1F90 -> r2 = 0x1F90).
Proof.
  assert (H6 : is_uint32 6) by (unfold is_uint32; rewrite UINT32_MOD_eq; lia).
  assert (Hfit : sizeof (Scalar := uint32_t BigEndian)
                 + sizeof (Scalar := uint16_t BigEndian) <= 6) by (simpl; lia).
  exact (two_fields_round_trip (uint32_t_ok BigEndian) (uint16_t_ok BigEndian)
           0xC0A80001 0x1F90 scenario_buffer 0 6 H6 eq_refl Hfit).
Defined.

Lemma app_same_length {A} (a1 a2 b1 b2 : list A) :
  a1 ++ a2 = b1 ++ b2 -> length a1 = length b1 -> a1 = b1 /\ a2 = b2.
Proof.
  revert b1. induction a1 as [|x a1 IH]; intros [|y b1] Heq Hlen;
    try discriminate.
  - split; [reflexivity | exact Heq].
  - injection Heq as -> Heq. injection Hlen as Hlen.
    destruct (IH b1 Heq Hlen) as [-> ->]. split; reflexivity.
Qed.

(** Storing over the first bytes of a run just stored gives what storing
    the new bytes followed by the rest of the run gives. *)
Lemma store_over_prefix (m : memory) (p : Z) (bs1 bs1' bs2 : list byte)
  (m2 : memory) :
  store m p (bs1 ++ bs2) = Some m2 -> length bs1' = length bs1 ->
  store m2 p bs1' = store m p (bs1' ++ bs2).
Proof.
  intros Hst Hsame.
  pose proof (store_length _ _ _ _ Hst) as Hlen.
  pose proof (store_shape _ _ _ _ Hst) as Hshape.
  unfold store in Hst.
  destruct (in_bounds m p (Z.of_nat (length (bs1 ++ bs2)))) eqn:Hb;
    [|discriminate].
  clear Hst. apply in_bounds_true in Hb. rewrite length_app in Hb, Hshape.
  unfold store. rewrite !length_app, Hsame.
  replace (in_bounds m2 p (Z.of_nat (length bs1))) with true
    by (symmetry; apply in_bounds_true; lia).
  replace (in_bounds m p (Z.of_nat (length bs1 + length bs2))) with true
    by (symmetry; apply in_bounds_true; lia).
  f_equal.
  set (A := firstn (Z.to_nat p) m) in *.
  assert (HA : length A = Z.to_nat p)
    by (unfold A; rewrite length_firstn; lia).
  set (C := skipn (Z.to_nat p + (length bs1 + length bs2)) m) in *.
  assert (Hfirst : firstn (Z.to_nat p) m2 = A).
  { rewrite Hshape, <- HA, <- (Nat.add_0_r (length A)).
    rewrite firstn_app_2, firstn_0. apply app_nil_r. }
  assert (Hskip : skipn (Z.to_nat p + length bs1) m2 = bs2 ++ C).
  { rewrite Hshape, <- app_assoc, (app_assoc A bs1).
    replace (Z.to_nat p + length bs1)%nat with (length (A ++ bs1))
      by (rewrite length_app; lia).
    rewrite skipn_app, skipn_all, Nat.sub_diag. reflexivity. }
  rewrite Hfirst, Hskip, <- !app_assoc. reflexivity.
Qed.

(** X17: patching back through a saved pointer.  When a placeholder of
    type [T] and then a range are written, and a value of type [T] is
    afterwards written through a second stream constructed at the pointer
    that [pointer()] returned before the placeholder, the buffer is the
    one that writing the value and then the range would have left: the
    value is found at the saved position, the range after it, and the
    first stream is where it would have been. *)
Theorem patch_back_through_pointer {T} {sc : Scalar T} (Hok : ScalarOk T)
  (placeholder v : T) (rest : list byte) (m : memory) (buffer L : Z)
  (HL : is_uint32 L) (Hin : in_bounds m buffer L = true)
  (Hfit : sizeof + Z.of_nat (length rest) <= L) :
  let out := {| OutputMemoryStream.mem := m;
                OutputMemoryStream.stream := OutputMemoryStream.make buffer L |} in
  exists s2 s3 direct,
    (p <- OutputMemoryStream.pointer ;;
     OutputMemoryStream.write placeholder ;;;
     OutputMemoryStream.write_range rest ;;;
     ret p) out = (Ok buffer, s2)
    /\ OutputMemoryStream.write v
         {| OutputMemoryStream.mem := heap s2;
            OutputMemoryStream.stream := OutputMemoryStream.make buffer sizeof |}
       = (Ok tt, s3)
    /\ (OutputMemoryStream.write v ;;; OutputMemoryStream.write_range rest) out
       = (Ok tt, direct)
    /\ heap s3 = heap direct
    /\ OutputMemoryStream.stream s2 = OutputMemoryStream.stream direct
    /\ load (heap s3) buffer sizeof = Some (object_repr v)
    /\ load (heap s3) (buffer + sizeof) (Z.of_nat (length rest)) = Some rest.
Proof.
  intros out. unfold is_uint32 in HL. apply in_bounds_true in Hin.
  pose proof (sizeof_range (T := T)) as Hw.
  pose proof (object_repr_length placeholder) as Hlenp.
  pose proof (object_repr_length v) as Hlenv.
  set (w := sizeof (T := T)) in *.
  set (r := Z.of_nat (length rest)) in *.
  assert (Hr : is_uint32 r) by (unfold is_uint32, r; lia).
  assert (Hc1 : to_uint32 (L - w) = L - w)
    by (apply to_uint32_small; unfold is_uint32; lia).
  (* the placeholder and the range *)
  destruct (store_in_bounds m buffer (object_repr placeholder ++ rest))
    as [m2 Hst2]; [apply in_bounds_true; rewrite length_app; fold r; lia|].
  destruct (store_app _ _ _ _ _ Hst2) as (m1 & Hst1 & Hst12).
  rewrite Hlenp in Hst12.
  (* the value and the range *)
  destruct (store_in_bounds m buffer (object_repr v ++ rest))
    as [m3 Hst3]; [apply in_bounds_true; rewrite length_app; fold r; lia|].
  destruct (store_app _ _ _ _ _ Hst3) as (m1' & Hst1' & Hst13).
  rewrite Hlenv in Hst13.
  assert (Hpatch : store m2 buffer (object_repr v) = Some m3).
  { rewrite (store_over_prefix m buffer (object_repr placeholder)
               (object_repr v) rest m2 Hst2); [exact Hst3|].
    apply Nat2Z.inj. lia. }
  set (s1 := produced out m1 w).
  assert (Hcap1 : capacity s1 = L - w) by exact Hc1.
  assert (Hpos1 : position s1 = buffer + w) by reflexivity.
  assert (Hheap1 : heap s1 = m1) by reflexivity.
  set (s1' := produced out m1' w).
  assert (Hcap1' : capacity s1' = L - w) by exact Hc1.
  assert (Hpos1' : position s1' = buffer + w) by reflexivity.
  assert (Hheap1' : heap s1' = m1') by reflexivity.
  set (patch := {| OutputMemoryStream.mem := m2;
                   OutputMemoryStream.stream :=
                     OutputMemoryStream.make buffer w |}).
  exists (produced s1 m2 r), (produced patch m3 w), (produced s1' m3 r).
  split.
  { unfold bind at 1. unfold OutputMemoryStream.pointer at 1, gets at 1.
    change (position out) with buffer.
    unfold bind at 1. rewrite (write_eq Hok placeholder out). fold w.
    change (capacity out) with L. change (position out) with buffer.
    change (heap out) with m.
    rewrite (ltb_false_of_le L w) by lia. rewrite Hst1. fold s1.
    unfold bind at 1. rewrite (write_range_eq rest s1). cbv zeta. fold r.
    rewrite (to_uint32_small r Hr), Hcap1, Hpos1, Hheap1.
    rewrite (ltb_false_of_le (L - w) r) by lia.
    rewrite Hst12. reflexivity. }
  split.
  { change (heap (produced s1 m2 r)) with m2. fold patch.
    rewrite (write_eq Hok v patch). fold w.
    change (capacity patch) with w. change (position patch) with buffer.
    change (heap patch) with m2.
    rewrite Z.ltb_irrefl, Hpatch. reflexivity. }
  split.
  { unfold bind at 1. rewrite (write_eq Hok v out). fold w.
    change (capacity out) with L. change (position out) with buffer.
    change (heap out) with m.
    rewrite (ltb_false_of_le L w) by lia. rewrite Hst1'. fold s1'.
    rewrite (write_range_eq rest s1'). cbv zeta. fold r.
    rewrite (to_uint32_small r Hr), Hcap1', Hpos1', Hheap1'.
    rewrite (ltb_false_of_le (L - w) r) by lia.
    rewrite Hst13. reflexivity. }
  split; [reflexivity|].
  split.
  { unfold produced.
    cbn [OutputMemoryStream.stream OutputMemoryStream.size_
         OutputMemoryStream.buffer_].
    rewrite Hcap1, Hcap1', Hpos1, Hpos1'. reflexivity. }
  change (heap (produced patch m3 w)) with m3.
  pose proof (load_store _ _ _ _ Hst3) as Hload.
  rewrite length_app, Nat2Z.inj_add, Hlenv in Hload. fold r in Hload.
  destruct (load_add m3 buffer w r _ ltac:(lia) ltac:(unfold r; lia) Hload)
    as (b1 & b2 & Hl1 & Hl2 & Heq).
  pose proof (load_length _ _ _ _ Hl1) as Hb1.
  assert (Hsplit : object_repr v = b1 /\ rest = b2).
  { apply app_same_length; [exact Heq|]. apply Nat2Z.inj. lia. }
  destruct Hsplit as [<- <-]. split; assumption.
Qed.

Lemma patch_back_through_pointer_witness :
  let out := {| OutputMemoryStream.mem := scenario_buffer;
                OutputMemoryStream.stream := OutputMemoryStream.make 1 5 |} in
  exists s2 s3 direct,
    (p <- OutputMemoryStream.pointer ;;
     OutputMemoryStream.write (sc := uint16_t BigEndian) 0 ;;;
     OutputMemoryStream.write_range [Init.Byte.x11; Init.Byte.x22; Init.Byte.x33] ;;;
     ret p) out = (Ok 1, s2)
    /\ OutputMemoryStream.write (sc := uint16_t BigEndian) 3
         {| OutputMemoryStream.mem := heap s2;
            OutputMemoryStream.stream :=
              OutputMemoryStream.make 1 (sizeof (Scalar := uint16_t BigEndian)) |}
       = (Ok tt, s3)
    /\ (OutputMemoryStream.write (sc := uint16_t BigEndian) 3 ;;;
        OutputMemoryStream.write_range
          [Init.Byte.x11; Init.Byte.x22; Init.Byte.x33]) out
       = (Ok tt, direct)
    /\ heap s3 = heap direct
    /\ OutputMemoryStream.stream s2 = OutputMemoryStream.stream direct
    /\ load (heap s3) 1 (sizeof (Scalar := uint16_t BigEndian))
       = Some (object_repr (Scalar := uint16_t BigEndian) 3)
    /\ load (heap s3) (1 + sizeof (Scalar := uint16_t BigEndian))
         (Z.of_nat (length [Init.Byte.x11; Init.Byte.x22; Init.Byte.x33]))
       = Some [Init.Byte.x11; Init.Byte.x22; Init.Byte.x33].
Proof.
  assert (H5 : is_uint32 5) by (unfold is_uint32; rewrite UINT32_MOD_eq; lia).
  assert (Hfit : sizeof (Scalar := uint16_t BigEndian)
                 + Z.of_nat (length [Init.Byte.x11; Init.Byte.x22; Init.Byte.x33])
                 <= 5) by (simpl; lia).
  exact (patch_back_through_pointer (uint16_t_ok BigEndian) 0 3
           [Init.Byte.x11; Init.Byte.x22; Init.Byte.x33]
           scenario_buffer 1 5 H5 eq_refl Hfit).
Defined.

(** The patch of the witness, run: the length field written last lands
    before the three bytes written first. *)
Example patch_back_run :
  let s2 := snd ((OutputMemoryStream.write (sc := uint16_t BigEndian) 0 ;;;
                  OutputMemoryStream.write_range
                    [Init.Byte.x11; Init.Byte.x22; Init.Byte.x33])
                   {| OutputMemoryStream.mem := scenario_buffer;
                      OutputMemoryStream.stream := OutputMemoryStream.make 1 5 |}) in
  heap (snd (OutputMemoryStream.write (sc := uint16_t BigEndian) 3
               {| OutputMemoryStream.mem := heap s2;
                  OutputMemoryStream.stream := OutputMemoryStream.make 1 2 |}))
  = [Init.Byte.x01; Init.Byte.x00; Init.Byte.x03; Init.Byte.x11;
     Init.Byte.x22; Init.Byte.x33].
Proof. reflexivity. Qed.
